(** * SM4 block cipher back ends and the SM4-GCM mode

    A shallow embedding of [sm4_ttable.cpp], [sm4_aesni.cpp],
    [sm4_modern.cpp] and [sm4_gcm.cpp].  Unsigned machine integers are
    integers of [Z] with the wrap-around written out; byte buffers reached
    through a pointer are lists of [Z]. *)

From Stdlib Require Import ZArith List Lia Bool.
From coqutil Require Import Z.bitblast.
Import ListNotations.
Local Open Scope Z_scope.

(** ** Machine integers and buffers *)

(** Conversion to [uint8_t], [uint32_t] and [uint64_t]. *)
Definition u8 (z : Z) : Z := z mod 2 ^ 8.
Definition u32 (z : Z) : Z := z mod 2 ^ 32.
Definition u64 (z : Z) : Z := z mod 2 ^ 64.

(** [p[i]] for a buffer [p]. *)
Definition rd (p : list Z) (i : nat) : Z := nth i p 0.

(** [p[i] = v]; the source never writes outside its buffers, a write
    past the end is left without effect here. *)
Fixpoint wr (p : list Z) (i : nat) (v : Z) : list Z :=
  match p, i with
  | [], _ => []
  | _ :: t, O => v :: t
  | h :: t, S j => h :: wr t j v
  end.

(** [n] bytes read from a pointer: [std::copy(p, p + n, _)]. *)
Definition rdn (p : list Z) (n : nat) : list Z := map (rd p) (seq 0 n).

(** [out[off + k] = bytes[k]] for every [k], in order. *)
Fixpoint blit (out : list Z) (off : nat) (bytes : list Z) : list Z :=
  match bytes with
  | [] => out
  | v :: t => blit (wr out off v) (S off) t
  end.

(** The pointer [p + off]. *)
Definition at_offset (p : list Z) (off : nat) : list Z := skipn off p.

(** The big-endian load that every cipher routine repeats:
    [(p[4i] << 24) | (p[4i+1] << 16) | (p[4i+2] << 8) | p[4i+3]]. *)
Definition load_be32 (p : list Z) (i : nat) : Z :=
  Z.lor (Z.lor (Z.lor (Z.shiftl (rd p (4 * i)) 24)
                      (Z.shiftl (rd p (4 * i + 1)) 16))
               (Z.shiftl (rd p (4 * i + 2)) 8))
        (rd p (4 * i + 3)).

(** The four stores [out[4i] = (uint8_t)(Y >> 24)], ..., [out[4i+3] = (uint8_t)Y]. *)
Definition store_be32 (y : Z) : list Z :=
  [u8 (Z.shiftr y 24); u8 (Z.shiftr y 16); u8 (Z.shiftr y 8); u8 y].

(** The state [X[0..3]] of a block routine. *)
Definition words : Type := (Z * Z * Z * Z)%type.

Definition load_block (p : list Z) : words :=
  (load_be32 p 0, load_be32 p 1, load_be32 p 2, load_be32 p 3).

(** [Y = {X[3], X[2], X[1], X[0]}] followed by the byte stores. *)
Definition store_block (X : words) : list Z :=
  let '(X0, X1, X2, X3) := X in
  store_be32 X3 ++ store_be32 X2 ++ store_be32 X1 ++ store_be32 X0.

(** One pass of the round loop body, for the round function [F]:
    [temp = X[1]^X[2]^X[3]^rk; newX = X[0]^F(temp)] and the shift of [X]. *)
Definition round_step (F : Z -> Z) (rk : Z) (X : words) : words :=
  let '(X0, X1, X2, X3) := X in
  let temp := Z.lxor (Z.lxor (Z.lxor X1 X2) X3) rk in
  let newX := Z.lxor X0 (F temp) in
  (X1, X2, X3, newX).

(** [for (int i = 0; i < 32; i++)] and [for (int i = 31; i >= 0; i--)]. *)
Definition up32 : list nat := seq 0 32.
Definition down32 : list nat := rev (seq 0 32).

(** The round loop over the indices [order] of [roundKeys]. *)
Definition run_rounds (F : Z -> Z) (roundKeys : list Z) (order : list nat) (X : words)
  : words :=
  fold_left (fun X i => round_step F (rd roundKeys i) X) order X.

(** The text shared by every [encrypt] and [decrypt] of the three back
    ends: load of the four words, the round loop with the round function
    [F] of the back end in the order of the routine, reversal and stores. *)
Definition crypt (F : Z -> Z) (roundKeys : list Z) (order : list nat) (input : list Z)
  : list Z :=
  let X := load_block input in
  let X := run_rounds F roundKeys order X in
  store_block X.

Module SM4.

(** Modelled from the spec: [SBOX], [FK], [CK], [sbox], [leftRotate],
    [linearTransform] and [linearTransformPrime] are declared in [sm4.h]
    and defined in a source file that is not part of the sources at hand.
    The tables are those of the SM4 standard, which the spec names; the
    functions follow section 4.1 of the spec.  [SBOX] is the fixed
    256-entry permutation of the cipher. *)
Definition SBOX : list Z :=
  [ 0xd6; 0x90; 0xe9; 0xfe; 0xcc; 0xe1; 0x3d; 0xb7; 0x16; 0xb6; 0x14; 0xc2; 0x28; 0xfb; 0x2c; 0x05;
    0x2b; 0x67; 0x9a; 0x76; 0x2a; 0xbe; 0x04; 0xc3; 0xaa; 0x44; 0x13; 0x26; 0x49; 0x86; 0x06; 0x99;
    0x9c; 0x42; 0x50; 0xf4; 0x91; 0xef; 0x98; 0x7a; 0x33; 0x54; 0x0b; 0x43; 0xed; 0xcf; 0xac; 0x62;
    0xe4; 0xb3; 0x1c; 0xa9; 0xc9; 0x08; 0xe8; 0x95; 0x80; 0xdf; 0x94; 0xfa; 0x75; 0x8f; 0x3f; 0xa6;
    0x47; 0x07; 0xa7; 0xfc; 0xf3; 0x73; 0x17; 0xba; 0x83; 0x59; 0x3c; 0x19; 0xe6; 0x85; 0x4f; 0xa8;
    0x68; 0x6b; 0x81; 0xb2; 0x71; 0x64; 0xda; 0x8b; 0xf8; 0xeb; 0x0f; 0x4b; 0x70; 0x56; 0x9d; 0x35;
    0x1e; 0x24; 0x0e; 0x5e; 0x63; 0x58; 0xd1; 0xa2; 0x25; 0x22; 0x7c; 0x3b; 0x01; 0x21; 0x78; 0x87;
    0xd4; 0x00; 0x46; 0x57; 0x9f; 0xd3; 0x27; 0x52; 0x4c; 0x36; 0x02; 0xe7; 0xa0; 0xc4; 0xc8; 0x9e;
    0xea; 0xbf; 0x8a; 0xd2; 0x40; 0xc7; 0x38; 0xb5; 0xa3; 0xf7; 0xf2; 0xce; 0xf9; 0x61; 0x15; 0xa1;
    0xe0; 0xae; 0x5d; 0xa4; 0x9b; 0x34; 0x1a; 0x55; 0xad; 0x93; 0x32; 0x30; 0xf5; 0x8c; 0xb1; 0xe3;
    0x1d; 0xf6; 0xe2; 0x2e; 0x82; 0x66; 0xca; 0x60; 0xc0; 0x29; 0x23; 0xab; 0x0d; 0x53; 0x4e; 0x6f;
    0xd5; 0xdb; 0x37; 0x45; 0xde; 0xfd; 0x8e; 0x2f; 0x03; 0xff; 0x6a; 0x72; 0x6d; 0x6c; 0x5b; 0x51;
    0x8d; 0x1b; 0xaf; 0x92; 0xbb; 0xdd; 0xbc; 0x7f; 0x11; 0xd9; 0x5c; 0x41; 0x1f; 0x10; 0x5a; 0xd8;
    0x0a; 0xc1; 0x31; 0x88; 0xa5; 0xcd; 0x7b; 0xbd; 0x2d; 0x74; 0xd0; 0x12; 0xb8; 0xe5; 0xb4; 0xb0;
    0x89; 0x69; 0x97; 0x4a; 0x0c; 0x96; 0x77; 0x7e; 0x65; 0xb9; 0xf1; 0x09; 0xc5; 0x6e; 0xc6; 0x84;
    0x18; 0xf0; 0x7d; 0xec; 0x3a; 0xdc; 0x4d; 0x20; 0x79; 0xee; 0x5f; 0x3e; 0xd7; 0xcb; 0x39; 0x48 ].

(** Modelled from the spec: the missing table [FK], the fixed 4-word
    system parameter of the key schedule. *)
Definition FK : list Z := [ 0xa3b1bac6; 0x56aa3350; 0x677d9197; 0xb27022dc ].

(** Modelled from the spec: the missing table [CK], the fixed 32-entry
    constant table of the key schedule. *)
Definition CK : list Z :=
  [ 0x00070e15; 0x1c232a31; 0x383f464d; 0x545b6269; 0x70777e85; 0x8c939aa1; 0xa8afb6bd; 0xc4cbd2d9;
    0xe0e7eef5; 0xfc030a11; 0x181f262d; 0x343b4249; 0x50575e65; 0x6c737a81; 0x888f969d; 0xa4abb2b9;
    0xc0c7ced5; 0xdce3eaf1; 0xf8ff060d; 0x141b2229; 0x30373e45; 0x4c535a61; 0x686f767d; 0x848b9299;
    0xa0a7aeb5; 0xbcc3cad1; 0xd8dfe6ed; 0xf4fb0209; 0x10171e25; 0x2c333a41; 0x484f565d; 0x646b7279 ].

(** Modelled from the spec: the missing [uint8_t sbox(uint8_t input)],
    table-driven substitution without computation. *)
Definition sbox (input : Z) : Z := rd SBOX (Z.to_nat (u8 input)).

(** Modelled from the spec: the missing
    [uint32_t leftRotate(uint32_t value, int bits)], circular left shift
    of a 32-bit value, [bits] in [0, 32); for [bits = 0] the value is
    unchanged. *)
Definition leftRotate (value bits : Z) : Z :=
  u32 (Z.lor (Z.shiftl value bits) (Z.shiftr value (32 - bits))).

(** Modelled from the spec: the missing [linearTransform],
    [word ^ rotl(word,2) ^ rotl(word,10) ^ rotl(word,18) ^ rotl(word,24)];
    [sm4_modern.cpp] writes the same expression in line. *)
Definition linearTransform (input : Z) : Z :=
  u32 (Z.lxor (Z.lxor (Z.lxor (Z.lxor input (leftRotate input 2))
                              (leftRotate input 10))
                      (leftRotate input 18))
              (leftRotate input 24)).

(** Modelled from the spec: the missing [linearTransformPrime],
    [word ^ rotl(word,13) ^ rotl(word,23)]. *)
Definition linearTransformPrime (input : Z) : Z :=
  u32 (Z.lxor (Z.lxor input (leftRotate input 13)) (leftRotate input 23)).

(** The idiom [uint8_t* bytes = reinterpret_cast<uint8_t*>(&temp);
    bytes[k] = sbox(bytes[k])] for [k = 0..3]: every byte of the object
    representation of [temp] is replaced by its S-box image.  The bytes are
    taken in memory order of the little-endian x86-64 target; as all four
    are substituted where they stand, the word obtained is the same in
    any byte order. *)
Definition sbox_in_place (temp : Z) : Z :=
  let bytes0 := sbox (u8 temp) in
  let bytes1 := sbox (u8 (Z.shiftr temp 8)) in
  let bytes2 := sbox (u8 (Z.shiftr temp 16)) in
  let bytes3 := sbox (u8 (Z.shiftr temp 24)) in
  Z.lor (Z.lor (Z.lor bytes0 (Z.shiftl bytes1 8)) (Z.shiftl bytes2 16))
        (Z.shiftl bytes3 24).

(** The body of [keyExpansion], which [sm4_ttable.cpp], [sm4_aesni.cpp]
    and [sm4_modern.cpp] each spell out: rounds [i, i+n) from the window [K]. *)
Fixpoint expand_rounds (n i : nat) (K : words) : list Z :=
  match n with
  | O => []
  | S n' =>
      let '(K0, K1, K2, K3) := K in
      let temp := Z.lxor (Z.lxor (Z.lxor K1 K2) K3) (rd CK i) in
      let temp := sbox_in_place temp in
      let temp := linearTransformPrime temp in
      let rki := Z.lxor K0 temp in
      rki :: expand_rounds n' (S i) (K1, K2, K3, rki)
  end.

Definition expand_key (key : list Z) : list Z :=
  let K0 := Z.lxor (load_be32 key 0) (rd FK 0) in
  let K1 := Z.lxor (load_be32 key 1) (rd FK 1) in
  let K2 := Z.lxor (load_be32 key 2) (rd FK 2) in
  let K3 := Z.lxor (load_be32 key 3) (rd FK 3) in
  expand_rounds 32 0 (K0, K1, K2, K3).

End SM4.

Module TTable.
Import SM4.

(** [initializeTables]: the four static tables, filled for [i = 0..255]
    from [temp = sbox(i)]. *)
Definition table (shift : Z) : list Z :=
  map (fun i => let temp := sbox (Z.of_nat i) in
                linearTransform (u32 (Z.shiftl temp shift)))
      (seq 0 256).

Definition T0 : list Z := table 24.
Definition T1 : list Z := table 16.
Definition T2 : list Z := table 8.
Definition T3 : list Z := table 0.

Definition feistelFunction (input : Z) : Z :=
  let b0 := u8 (Z.shiftr input 24) in
  let b1 := u8 (Z.shiftr input 16) in
  let b2 := u8 (Z.shiftr input 8) in
  let b3 := u8 input in
  Z.lxor (Z.lxor (Z.lxor (rd T0 (Z.to_nat b0)) (rd T1 (Z.to_nat b1)))
                 (rd T2 (Z.to_nat b2)))
         (rd T3 (Z.to_nat b3)).

Definition keyExpansion (key : list Z) : list Z := expand_key key.

(** [setKey] overwrites the member [roundKeys]; the object is its schedule. *)
Definition setKey (key : list Z) : list Z := keyExpansion key.

Definition clear (roundKeys : list Z) : list Z := map (fun _ => 0) roundKeys.

Definition encrypt (roundKeys : list Z) (plaintext : list Z) : list Z :=
  crypt feistelFunction roundKeys up32 plaintext.

Definition decrypt (roundKeys : list Z) (ciphertext : list Z) : list Z :=
  crypt feistelFunction roundKeys down32 ciphertext.

End TTable.

Module AESNI.
Import SM4.

Definition keyExpansion (key : list Z) : list Z := expand_key key.

Definition setKey (key : list Z) : list Z := keyExpansion key.

Definition clear (roundKeys : list Z) : list Z := map (fun _ => 0) roundKeys.

(** The round function that [encrypt] and [decrypt] write in line:
    the S-box on the four bytes of [temp], then [linearTransform]. *)
Definition round_function (temp : Z) : Z :=
  let temp := sbox_in_place temp in
  linearTransform temp.

Definition encrypt (roundKeys : list Z) (plaintext : list Z) : list Z :=
  crypt round_function roundKeys up32 plaintext.

Definition decrypt (roundKeys : list Z) (ciphertext : list Z) : list Z :=
  crypt round_function roundKeys down32 ciphertext.

End AESNI.

Module ModernISA.
Import SM4.

Definition keyExpansion (key : list Z) : list Z := expand_key key.

Definition setKey (key : list Z) : list Z := keyExpansion key.

Definition clear (roundKeys : list Z) : list Z := map (fun _ => 0) roundKeys.

(** The scalar computation of [feistelFunctionAVX] (and, word for word,
    of [feistelFunctionSSE] and of the F function written in line in the
    batch routines) on lane 0; [_mm_set1_epi32] followed by
    [_mm_extract_epi32(_, 0)] hands the 32-bit value through unchanged.
    The bytes [b1], [b2], [b3] are shifted as [int] and the result is
    converted to [uint32_t]. *)
Definition feistelFunctionAVX (scalar_input : Z) : Z :=
  let b0 := sbox (Z.land scalar_input 0xFF) in
  let b1 := sbox (Z.land (Z.shiftr scalar_input 8) 0xFF) in
  let b2 := sbox (Z.land (Z.shiftr scalar_input 16) 0xFF) in
  let b3 := sbox (Z.land (Z.shiftr scalar_input 24) 0xFF) in
  let sbox_result :=
    u32 (Z.lor (Z.lor (Z.lor b0 (Z.shiftl b1 8)) (Z.shiftl b2 16)) (Z.shiftl b3 24)) in
  Z.lxor (Z.lxor (Z.lxor (Z.lxor sbox_result
    (Z.lor (u32 (Z.shiftl sbox_result 2)) (Z.shiftr sbox_result 30)))
    (Z.lor (u32 (Z.shiftl sbox_result 10)) (Z.shiftr sbox_result 22)))
    (Z.lor (u32 (Z.shiftl sbox_result 18)) (Z.shiftr sbox_result 14)))
    (Z.lor (u32 (Z.shiftl sbox_result 24)) (Z.shiftr sbox_result 8)).

(** The round function of [encrypt] and [decrypt]: the branch on the
    static flag [avxSupported]. *)
Definition round_function (avxSupported : bool) (temp : Z) : Z :=
  if avxSupported then feistelFunctionAVX temp
  else linearTransform (sbox_in_place temp).

Definition encrypt (avxSupported : bool) (roundKeys : list Z) (plaintext : list Z) : list Z :=
  crypt (round_function avxSupported) roundKeys up32 plaintext.

Definition decrypt (avxSupported : bool) (roundKeys : list Z) (ciphertext : list Z) : list Z :=
  crypt (round_function avxSupported) roundKeys down32 ciphertext.

(** *** Batch processing *)

(** Loading four blocks into [X[16]]: [X[block * 4 + i]] is word [i] of
    the block at [src = in + (b + block) * 16]. *)
Definition load4 (input : list Z) (b : nat) : list Z :=
  flat_map (fun block => let src := at_offset input ((b + block) * 16) in
                         map (load_be32 src) (seq 0 4))
           (seq 0 4).

(** The body of the inner [for (int block = 0; block < 4; block++)] of a
    round: the F function in line and the shift of the four words of
    [block] inside [X]. *)
Definition lane_step (rk : Z) (X : list Z) (block : nat) : list Z :=
  let base := (block * 4)%nat in
  let temp := Z.lxor (Z.lxor (Z.lxor (rd X (base + 1)) (rd X (base + 2)))
                             (rd X (base + 3))) rk in
  let temp := feistelFunctionAVX temp in
  let newX := Z.lxor (rd X base) temp in
  let X := wr X base (rd X (base + 1)) in
  let X := wr X (base + 1) (rd X (base + 2)) in
  let X := wr X (base + 2) (rd X (base + 3)) in
  wr X (base + 3) newX.

Definition batch_round (rk : Z) (X : list Z) : list Z :=
  fold_left (lane_step rk) (seq 0 4) X.

(** The reversal and the stores of the four blocks at [out + (b + block) * 16]. *)
Definition store4 (X : list Z) (out : list Z) (b : nat) : list Z :=
  fold_left (fun out block =>
               let base := (block * 4)%nat in
               blit out ((b + block) * 16)
                    (store_block (rd X base, rd X (base + 1),
                                  rd X (base + 2), rd X (base + 3))))
            (seq 0 4) out.

(** One pass of [for (size_t b = 0; b < (blockCount / 4) * 4; b += 4)],
    with the order [rounds] of the round loop. *)
Definition batch4 (rounds : list nat) (roundKeys input : list Z) (out : list Z) (b : nat)
  : list Z :=
  let X := load4 input b in
  let X := fold_left (fun X round => batch_round (rd roundKeys round) X) rounds X in
  store4 X out b.

(** The values [0, 4, 8, ...] below [(blockCount / 4) * 4] of the loop variable [b]. *)
Definition batch_starts (blockCount : nat) : list nat :=
  map (fun q => (4 * q)%nat) (seq 0 (blockCount / 4)).

Definition encryptBlocks (avxSupported : bool) (roundKeys : list Z)
    (plaintext ciphertext : list Z) (blockCount : nat) : list Z :=
  if avxSupported && (4 <=? blockCount)%nat then
    let ciphertext :=
      fold_left (batch4 up32 roundKeys plaintext) (batch_starts blockCount) ciphertext in
    let remaining := (blockCount mod 4)%nat in
    fold_left (fun ciphertext i =>
                 let k := (blockCount - remaining + i)%nat in
                 blit ciphertext (k * 16)
                      (encrypt avxSupported roundKeys (at_offset plaintext (k * 16))))
              (seq 0 remaining) ciphertext
  else
    fold_left (fun ciphertext i =>
                 blit ciphertext (i * 16)
                      (encrypt avxSupported roundKeys (at_offset plaintext (i * 16))))
              (seq 0 blockCount) ciphertext.

Definition decryptBlocks (avxSupported : bool) (roundKeys : list Z)
    (ciphertext plaintext : list Z) (blockCount : nat) : list Z :=
  if avxSupported && (4 <=? blockCount)%nat then
    let plaintext :=
      fold_left (batch4 down32 roundKeys ciphertext) (batch_starts blockCount) plaintext in
    let remaining := (blockCount mod 4)%nat in
    fold_left (fun plaintext i =>
                 let k := (blockCount - remaining + i)%nat in
                 blit plaintext (k * 16)
                      (decrypt avxSupported roundKeys (at_offset ciphertext (k * 16))))
              (seq 0 remaining) plaintext
  else
    fold_left (fun plaintext i =>
                 blit plaintext (i * 16)
                      (decrypt avxSupported roundKeys (at_offset ciphertext (i * 16))))
              (seq 0 blockCount) plaintext.

End ModernISA.

Module SM4_GCM.

(** The members of [class SM4_GCM]: the [TTable] cipher (its round keys),
    the sub-key [H] as two 64-bit words, and the [iv] and [aad] vectors. *)
Record t : Type := mk {
  sm4 : list Z;
  H : Z * Z;
  iv : list Z;
  aad : list Z
}.

Definition clear (self : t) : t :=
  mk (TTable.clear (sm4 self))
     (0, 0)
     (map (fun _ => 0) (iv self))
     (map (fun _ => 0) (aad self)).

(** [H = E_K(0^128)], packed into [H[0]] and [H[1]]. *)
Definition generateSubkey (self : t) : t :=
  let zero_block := repeat 0 16 in
  let h_bytes := TTable.encrypt (sm4 self) zero_block in
  let H01 :=
    fold_left (fun '(H0, H1) i =>
                 (u64 (Z.lor (Z.shiftl H0 8) (rd h_bytes i)),
                  u64 (Z.lor (Z.shiftl H1 8) (rd h_bytes (i + 8)))))
              (seq 0 8) (0, 0) in
  mk (sm4 self) H01 (iv self) (aad self).

Definition setKey (key : list Z) (self : t) : t :=
  generateSubkey (mk (TTable.setKey key) (H self) (iv self) (aad self)).

Definition setIV (iv_data : list Z) (ivLen : nat) (self : t) : t :=
  mk (sm4 self) (H self) (rdn iv_data ivLen) (aad self).

Definition setAAD (aad_data : list Z) (aadLen : nat) (self : t) : t :=
  mk (sm4 self) (H self) (iv self) (rdn aad_data aadLen).

(** [a[j] ^= b[j]] for [j = 0..15]. *)
Definition xor16 (a b : list Z) : list Z :=
  map (fun j => Z.lxor (rd a j) (rd b j)) (seq 0 16).

(** The loop [v = v >> 1] of [gfmul] over the bytes of [v], from the
    carry that enters; it returns the shifted bytes and the carry that
    leaves the last byte. *)
Fixpoint shift_right (carry : Z) (v : list Z) : list Z * Z :=
  match v with
  | [] => ([], carry)
  | vj :: rest =>
      let new_carry := Z.land vj 1 in
      let vj' := u8 (Z.lor (Z.shiftr vj 1) (Z.shiftl carry 7)) in
      let '(rest', out) := shift_right new_carry rest in
      (vj' :: rest', out)
  end.

(** The part of the loop body of [gfmul] that advances [v]. *)
Definition advance (v : list Z) : list Z :=
  let '(v, carry) := shift_right 0 v in
  if Z.eqb carry 0 then v else wr v 0 (Z.lxor (rd v 0) 0xE1).

(** The test [x[byte_idx] & (1 << bit_idx)] of pass [i]. *)
Definition bit_set (x : list Z) (i : nat) : bool :=
  let byte_idx := (i / 8)%nat in
  let bit_idx := (7 - i mod 8)%nat in
  negb (Z.eqb (Z.land (rd x byte_idx) (Z.shiftl 1 (Z.of_nat bit_idx))) 0).

Definition gfmul_step (x : list Z) (zv : list Z * list Z) (i : nat)
  : list Z * list Z :=
  let '(z, v) := zv in
  let z := if bit_set x i then xor16 z v else z in
  (z, advance v).

Definition gfmul (x y : list Z) : list Z :=
  let z := repeat 0 16 in
  let v := rdn y 16 in
  fst (fold_left (gfmul_step x) (seq 0 128) (z, v)).

(** The eight bytes [(uint8_t)(w >> (56 - 8 * i))], [i = 0..7]. *)
Definition be64 (w : Z) : list Z :=
  map (fun i => u8 (Z.shiftr w (56 - 8 * Z.of_nat i))) (seq 0 8).

Definition ghash (self : t) (data : list Z) (len : nat) : list Z :=
  let y := repeat 0 16 in
  let h_bytes := be64 (fst (H self)) ++ be64 (snd (H self)) in
  let full_blocks := (len / 16)%nat in
  let y := fold_left (fun y i =>
                        let y := xor16 y (at_offset data (i * 16)) in
                        gfmul y h_bytes)
                     (seq 0 full_blocks) y in
  let remaining := (len mod 16)%nat in
  if (0 <? remaining)%nat then
    let padded_block :=
      rdn (at_offset data (full_blocks * 16)) remaining ++ repeat 0 (16 - remaining) in
    let y := xor16 y padded_block in
    gfmul y h_bytes
  else y.

Definition incrementCounter (counter : list Z) : list Z :=
  let low := load_be32 counter 3 in
  let low := u32 (low + 1) in
  let counter := wr counter 12 (u8 (Z.shiftr low 24)) in
  let counter := wr counter 13 (u8 (Z.shiftr low 16)) in
  let counter := wr counter 14 (u8 (Z.shiftr low 8)) in
  wr counter 15 (u8 low).

(** The block [j0], the same text in [encrypt] and [decrypt]. *)
Definition initial_counter (self : t) : list Z :=
  let j0 := repeat 0 16 in
  if Nat.eqb (length (iv self)) 12 then
    let j0 := blit j0 0 (iv self) in
    wr j0 15 1
  else ghash self (iv self) (length (iv self)).

(** One pass of a counter-mode loop: the counter is advanced and
    enciphered, and [count] bytes of [input] from [off] on are combined
    with the key stream into [output]. *)
Definition ctr_block (self : t) (input : list Z) (off count : nat)
    (st : list Z * list Z) : list Z * list Z :=
  let '(counter, output) := st in
  let counter := incrementCounter counter in
  let keystream := TTable.encrypt (sm4 self) counter in
  (counter,
   fold_left (fun output j =>
                wr output (off + j) (Z.lxor (rd input (off + j)) (rd keystream j)))
             (seq 0 count) output).

(** The counter-mode part, the same text in [encrypt] and [decrypt] up to
    the names of the two buffers. *)
Definition ctr_mode (self : t) (j0 input : list Z) (len : nat) (output : list Z)
  : list Z :=
  let counter := rdn j0 16 in
  let full_blocks := (len / 16)%nat in
  let remaining := (len mod 16)%nat in
  let st := fold_left (fun st i => ctr_block self input (i * 16) 16 st)
                      (seq 0 full_blocks) (counter, output) in
  if (0 <? remaining)%nat then
    snd (ctr_block self input (full_blocks * 16) remaining st)
  else snd st.

(** The vector [auth_data] and its hash. *)
Definition auth_hash (self : t) (ciphertext : list Z) (len : nat) : list Z :=
  let aad_len_bits := u64 (Z.of_nat (length (aad self)) * 8) in
  let ct_len_bits := u64 (Z.of_nat len * 8) in
  let auth_data :=
    aad self ++ rdn ciphertext len ++ be64 aad_len_bits ++ be64 ct_len_bits in
  ghash self auth_data (length auth_data).

Definition encrypt (self : t) (plaintext : list Z) (ptLen : nat)
    (ciphertext tag : list Z) (tagLen : nat) : bool * list Z * list Z :=
  if Nat.eqb (length (iv self)) 0 then (false, ciphertext, tag)
  else
    let j0 := initial_counter self in
    let tag_mask := TTable.encrypt (sm4 self) j0 in
    let ciphertext := ctr_mode self j0 plaintext ptLen ciphertext in
    let auth_tag := auth_hash self ciphertext ptLen in
    let actual_tag_len := Nat.min tagLen 16 in
    let tag := fold_left (fun tag i => wr tag i (Z.lxor (rd auth_tag i) (rd tag_mask i)))
                         (seq 0 actual_tag_len) tag in
    (true, ciphertext, tag).

Definition decrypt (self : t) (ciphertext : list Z) (ctLen : nat)
    (tag : list Z) (tagLen : nat) (plaintext : list Z) : bool * list Z :=
  if Nat.eqb (length (iv self)) 0 then (false, plaintext)
  else
    let j0 := initial_counter self in
    let tag_mask := TTable.encrypt (sm4 self) j0 in
    let expected_tag := auth_hash self ciphertext ctLen in
    let expected_tag := xor16 expected_tag tag_mask in
    let actual_tag_len := Nat.min tagLen 16 in
    if forallb (fun i => Z.eqb (rd expected_tag i) (rd tag i)) (seq 0 actual_tag_len)
    then (true, ctr_mode self j0 ciphertext ctLen plaintext)
    else (false, plaintext).

(** *** Sessions: a sequence of member calls on one object *)

Inductive call : Type :=
| SetKey (key : list Z)
| SetIV (iv_data : list Z) (ivLen : nat)
| SetAAD (aad_data : list Z) (aadLen : nat)
| Encrypt (plaintext : list Z) (ptLen : nat) (ciphertext tag : list Z) (tagLen : nat)
| Decrypt (ciphertext : list Z) (ctLen : nat) (tag : list Z) (tagLen : nat)
          (plaintext : list Z)
| Clear.

Inductive reply : Type :=
| Done
| Encrypted (r : bool * list Z * list Z)
| Decrypted (r : bool * list Z).

(** A call takes the object to its next state and answers the caller;
    [encrypt] and [decrypt] assign to no member. *)
Definition step (self : t) (c : call) : t * reply :=
  match c with
  | SetKey key => (setKey key self, Done)
  | SetIV iv_data ivLen => (setIV iv_data ivLen self, Done)
  | SetAAD aad_data aadLen => (setAAD aad_data aadLen self, Done)
  | Encrypt plaintext ptLen ciphertext tag tagLen =>
      (self, Encrypted (encrypt self plaintext ptLen ciphertext tag tagLen))
  | Decrypt ciphertext ctLen tag tagLen plaintext =>
      (self, Decrypted (decrypt self ciphertext ctLen tag tagLen plaintext))
  | Clear => (clear self, Done)
  end.

Fixpoint run (self : t) (cs : list call) : t * list reply :=
  match cs with
  | [] => (self, [])
  | c :: rest =>
      let '(self, r) := step self c in
      let '(self, rs) := run self rest in
      (self, r :: rs)
  end.

End SM4_GCM.

(** ** The test vector of [test_sm4.cpp] *)

Definition test_key : list Z :=
  [ 0x01; 0x23; 0x45; 0x67; 0x89; 0xab; 0xcd; 0xef;
    0xfe; 0xdc; 0xba; 0x98; 0x76; 0x54; 0x32; 0x10 ].

Definition test_plaintext : list Z :=
  [ 0x01; 0x23; 0x45; 0x67; 0x89; 0xab; 0xcd; 0xef;
    0xfe; 0xdc; 0xba; 0x98; 0x76; 0x54; 0x32; 0x10 ].

Definition expected_ciphertext : list Z :=
  [ 0x68; 0x1e; 0xdf; 0x34; 0xd2; 0x06; 0x96; 0x5e;
    0x86; 0xb3; 0xe9; 0x4f; 0x53; 0x6e; 0x42; 0x46 ].

(** ** Ranges *)

Definition byte (b : Z) : Prop := 0 <= b < 2 ^ 8.
Definition word32 (w : Z) : Prop := 0 <= w < 2 ^ 32.
Definition bytes (l : list Z) : Prop := Forall byte l.

(** A buffer of exactly sixteen bytes. *)
Definition block (l : list Z) : Prop := length l = 16%nat /\ bytes l.

(** ** Notions used in the statements *)

(** *** Block routines *)

(** The four words of a state are 32-bit values. *)
Definition words_ok (X : words) : Prop :=
  let '(X0, X1, X2, X3) := X in word32 X0 /\ word32 X1 /\ word32 X2 /\ word32 X3.

(** The reversal [{X[3], X[2], X[1], X[0]}]. *)
Definition reverse (X : words) : words :=
  let '(X0, X1, X2, X3) := X in (X3, X2, X1, X0).

(** The array [X[16]] that holds four block states side by side. *)
Definition side_by_side (A B C D : words) : list Z :=
  let '(A0, A1, A2, A3) := A in
  let '(B0, B1, B2, B3) := B in
  let '(C0, C1, C2, C3) := C in
  let '(D0, D1, D2, D3) := D in
  [A0; A1; A2; A3; B0; B1; B2; B3; C0; C1; C2; C3; D0; D1; D2; D3].

(** One single-block call of the back end on block [i] of the buffers. *)
Definition single_call (rounds : list nat) (avxSupported : bool)
    (roundKeys input : list Z) (out : list Z) (i : nat) : list Z :=
  blit out (i * 16)
       (crypt (ModernISA.round_function avxSupported) roundKeys rounds
              (at_offset input (i * 16))).

(** Block [i] of a buffer of whole blocks. *)
Definition block_of (p : list Z) (i : nat) : list Z :=
  firstn 16 (at_offset p (i * 16)).

(** Five blocks of input, the bytes 0 to 79. *)
Definition five_blocks : list Z := map Z.of_nat (seq 0 80).

(** *** Counter mode and tags *)

(** The counter block after [m] increments. *)
Definition counter_after (j0 : list Z) (m : nat) : list Z :=
  Nat.iter m SM4_GCM.incrementCounter (rdn j0 16).

(** Byte [k] of the key stream of a session from the block [j0]. *)
Definition keystream_byte (self : SM4_GCM.t) (j0 : list Z) (k : nat) : Z :=
  rd (TTable.encrypt (SM4_GCM.sm4 self) (counter_after j0 (S (k / 16)))) (k mod 16).

(** What a counter-mode loop has done to its output buffer once the
    first [m] bytes are processed. *)
Definition ctr_done (self : SM4_GCM.t) (j0 input output : list Z) (m : nat)
    (out' : list Z) : Prop :=
  length out' = length output
  /\ forall k, rd out' k = if (k <? m)%nat
                           then Z.lxor (rd input k) (keystream_byte self j0 k)
                           else rd output k.

(** The tag that [decrypt] recomputes from the ciphertext it is given. *)
Definition expected_tag (self : SM4_GCM.t) (ciphertext : list Z) (ctLen : nat) : list Z :=
  SM4_GCM.xor16 (SM4_GCM.auth_hash self ciphertext ctLen)
                (TTable.encrypt (SM4_GCM.sm4 self) (SM4_GCM.initial_counter self)).

(** *** Sessions *)

(** An object on which no member function has been called yet: the
    vectors are empty; the round keys and [H] hold whatever the memory
    holds, here zeros. *)
Definition fresh : SM4_GCM.t := SM4_GCM.mk (repeat 0 32) (0, 0) [] [].

(** The IV and the plaintext of [testSM4GCM], and some associated data. *)
Definition test_iv : list Z := [0; 1; 2; 3; 4; 5; 6; 7; 8; 9; 10; 11].

Definition test_aad : list Z := [0xfe; 0xed; 0xfa; 0xce].

Definition hello : list Z :=
  [72; 101; 108; 108; 111; 44; 32; 83; 77; 52; 45; 71; 67; 77; 33].

Definition test_session : SM4_GCM.t :=
  SM4_GCM.setAAD test_aad (length test_aad)
    (SM4_GCM.setIV test_iv (length test_iv) (SM4_GCM.setKey test_key fresh)).

(** The calls that are [encrypt] or [decrypt]. *)
Definition is_crypt (c : SM4_GCM.call) : bool :=
  match c with
  | SM4_GCM.Encrypt _ _ _ _ _ | SM4_GCM.Decrypt _ _ _ _ _ => true
  | _ => false
  end.

(** The reading of C8 as it is written: the setters replace the stored
    vectors, and what they store serves one [encrypt] or [decrypt] only,
    so that an [encrypt] that follows such a call with no new [setIV]
    finds no IV and reports failure. *)
Definition stored_for_next_call_only : Prop :=
  (forall self d1 n1 d2,
      SM4_GCM.iv (SM4_GCM.setIV d2 (length d2) (SM4_GCM.setIV d1 n1 self)) = d2
      /\ SM4_GCM.aad (SM4_GCM.setAAD d2 (length d2) (SM4_GCM.setAAD d1 n1 self)) = d2)
  /\ (forall self c plaintext ptLen ciphertext tag tagLen,
         is_crypt c = true ->
         fst (fst (SM4_GCM.encrypt (fst (SM4_GCM.step self c))
                                   plaintext ptLen ciphertext tag tagLen)) = false).

(** *** The field GF(2^128) of [gfmul]

    A block is read as the integer whose bit [127 - i] is bit [i] of the
    block in the order of [gfmul] (byte 0 first, most significant bit of
    a byte first).  On these integers the addition of the field is
    [Z.lxor] and the passage from [v] to the next [v] of the loop is the
    map [mulx]. *)

(** The integer of a byte string, first byte most significant. *)
Fixpoint val (l : list Z) : Z :=
  match l with
  | [] => 0
  | b :: t => b * 2 ^ (8 * Z.of_nat (length t)) + val t
  end.

(** The constant [0xE1] in the first byte. *)
Definition reduction : Z := Z.shiftl 0xE1 120.

(** Shift right by one bit; the constant is added when a bit leaves. *)
Definition mulx (V : Z) : Z :=
  Z.lxor (Z.shiftr V 1) (if Z.odd V then reduction else 0).

(** [V] or zero. *)
Definition cond (b : bool) (V : Z) : Z := if b then V else 0.

(** The sum of the [mulx^i V] over the positions [i] at which [bs] holds. *)
Fixpoint horner (bs : list bool) (V : Z) : Z :=
  match bs with
  | [] => 0
  | b :: rest => Z.lxor (cond b V) (horner rest (mulx V))
  end.

(** One pass of the loop of [gfmul] on integers. *)
Definition zstep (zv : Z * Z) (b : bool) : Z * Z :=
  let '(z, v) := zv in ((if b then Z.lxor z v else z), mulx v).

(** The exclusive or of two byte strings, byte by byte. *)
Fixpoint xor_lists (a b : list Z) : list Z :=
  match a, b with
  | x :: a', y :: b' => Z.lxor x y :: xor_lists a' b'
  | _, _ => []
  end.

(** *** Further notions *)

(** The block [80 00 ... 00], the polynomial 1 in the bit order of [gfmul]. *)
Definition gf_one : list Z := 0x80 :: repeat 0 15.

(** The packing loop of [generateSubkey] on one of the two words:
    [H = (H << 8) | b] for the bytes [b] of [l] in order. *)
Definition pack64 (l : list Z) : Z :=
  fold_left (fun H b => u64 (Z.lor (Z.shiftl H 8) b)) l 0.

(** The calls that leave a session without IV as it is: all but a
    [setIV] with a nonzero length. *)
Definition keeps_no_iv (c : SM4_GCM.call) : bool :=
  match c with
  | SM4_GCM.SetIV _ ivLen => Nat.eqb ivLen 0
  | _ => true
  end.

(** The first [n] bytes of two buffers combined by exclusive or. *)
Definition xor_upto (a b : list Z) (n : nat) : list Z :=
  map (fun k => Z.lxor (rd a k) (rd b k)) (seq 0 n).

(** The calls that assign to neither vector: [encrypt], [decrypt] and
    [setKey]. *)
Definition keeps_vectors (c : SM4_GCM.call) : bool :=
  match c with
  | SM4_GCM.Encrypt _ _ _ _ _ | SM4_GCM.Decrypt _ _ _ _ _ | SM4_GCM.SetKey _ => true
  | _ => false
  end.

(** One pass of the loop of [keyExpansion] on the array [K], for the
    round [i]: the new [K[3]] is [roundKeys[i]]. *)
Definition key_step (i : nat) (K : words) : words :=
  let '(K0, K1, K2, K3) := K in
  (K1, K2, K3,
   Z.lxor K0 (SM4.linearTransformPrime
                (SM4.sbox_in_place (Z.lxor (Z.lxor (Z.lxor K1 K2) K3) (rd SM4.CK i))))).

(** The array [K] after [n] passes that start at round [i]. *)
Fixpoint key_state (n i : nat) (K : words) : words :=
  match n with
  | O => K
  | S n' => key_state n' (S i) (key_step i K)
  end.

(** ** First facts on ranges *)

Lemma u8_byte z : byte (u8 z).
Proof. unfold byte, u8. apply Z.mod_pos_bound. lia. Qed.

Lemma u32_word z : word32 (u32 z).
Proof. unfold word32, u32. apply Z.mod_pos_bound. lia. Qed.

Lemma u8_id b : byte b -> u8 b = b.
Proof. unfold byte, u8. intros Hb. apply Z.mod_small. exact Hb. Qed.

Lemma u32_id w : word32 w -> u32 w = w.
Proof. unfold word32, u32. intros Hw. apply Z.mod_small. exact Hw. Qed.

(** A value in range is rewritten as its own reduction, so that the
    bitwise decision procedure sees which bits vanish. *)
Ltac in_range H :=
  match type of H with
  | word32 ?a => rewrite <- (u32_id a H)
  | byte ?b => rewrite <- (u8_id b H)
  end.

Ltac negative_bits :=
  repeat match goal with
         | |- context [Z.testbit ?a ?j] => rewrite (Z.testbit_neg_r a j) by lia
         end.

Ltac bits :=
  unfold u8, u32, u64; Z.bitblast;
  try (rewrite ?Z.testbit_mod_pow2 by lia; Z.bitblast_core);
  try (negative_bits; Z.bitblast_core).

Lemma word32_lxor a b : word32 a -> word32 b -> word32 (Z.lxor a b).
Proof.
  intros Ha Hb.
  replace (Z.lxor a b) with (u32 (Z.lxor a b)); [apply u32_word|].
  in_range Ha. in_range Hb. bits.
Qed.

Lemma word32_lor a b : word32 a -> word32 b -> word32 (Z.lor a b).
Proof.
  intros Ha Hb.
  replace (Z.lor a b) with (u32 (Z.lor a b)); [apply u32_word|].
  in_range Ha. in_range Hb. bits.
Qed.

Lemma word32_shiftr a k : 0 <= k -> word32 a -> word32 (Z.shiftr a k).
Proof.
  intros Hk Ha.
  replace (Z.shiftr a k) with (u32 (Z.shiftr a k)); [apply u32_word|].
  in_range Ha. bits.
Qed.

Lemma byte_word32_shiftl b k : 0 <= k <= 24 -> byte b -> word32 (Z.shiftl b k).
Proof.
  intros Hk Hb.
  replace (Z.shiftl b k) with (u32 (Z.shiftl b k)); [apply u32_word|].
  in_range Hb. bits.
Qed.

Lemma byte_word32 b : byte b -> word32 b.
Proof. unfold byte, word32. lia. Qed.

(** ** Big-endian loads and stores *)

Lemma load_store_be32 y rest :
  word32 y -> load_be32 (store_be32 y ++ rest) 0 = y.
Proof.
  intros Hy. unfold load_be32, store_be32, rd. cbn [Nat.mul Nat.add app nth].
  in_range Hy. bits.
Qed.

Lemma store_load_be32 b0 b1 b2 b3 rest :
  byte b0 -> byte b1 -> byte b2 -> byte b3 ->
  store_be32 (load_be32 (b0 :: b1 :: b2 :: b3 :: rest) 0) = [b0; b1; b2; b3].
Proof.
  intros H0 H1 H2 H3. unfold load_be32, store_be32, rd. cbn [Nat.mul Nat.add nth].
  in_range H0. in_range H1. in_range H2. in_range H3.
  f_equal; [bits | f_equal; [bits | f_equal; [bits | f_equal; bits]]].
Qed.

(** A byte buffer of known length is a literal list of that many elements. *)
Ltac explode l H :=
  repeat (destruct l as [| ? l]; [discriminate H |]);
  destruct l; [clear H | discriminate H].

Ltac split_bytes :=
  repeat match goal with
         | H : bytes (_ :: _) |- _ => apply Forall_cons_iff in H; destruct H
         | H : Forall byte (_ :: _) |- _ => apply Forall_cons_iff in H; destruct H
         | H : bytes [] |- _ => clear H
         | H : Forall byte [] |- _ => clear H
         end.

Lemma store_be32_bytes y : bytes (store_be32 y).
Proof. unfold store_be32. repeat constructor; apply u8_byte. Qed.

Lemma store_be32_length y : length (store_be32 y) = 4%nat.
Proof. reflexivity. Qed.

Lemma load_be32_word p i : bytes p -> word32 (load_be32 p i).
Proof.
  intros Hp.
  assert (Hrd : forall k, byte (rd p k)).
  { intros k. unfold rd. destruct (nth_in_or_default k p 0) as [Hin | ->].
    - unfold bytes in Hp. rewrite Forall_forall in Hp. auto.
    - unfold byte. lia. }
  unfold load_be32.
  repeat apply word32_lor;
    try (apply byte_word32_shiftl; [lia | apply Hrd]).
  apply byte_word32, Hrd.
Qed.

(** ** The round structure, for any round function with 32-bit results *)

Lemma load_block_ok p : bytes p -> words_ok (load_block p).
Proof. intros Hp. unfold load_block, words_ok. auto using load_be32_word. Qed.

Lemma load_store_block X : words_ok X -> load_block (store_block X) = reverse X.
Proof.
  destruct X as [[[X0 X1] X2] X3]. intros (H0 & H1 & H2 & H3).
  unfold load_block, store_block, reverse.
  pose proof (load_store_be32 X0 [] H0) as E0.
  pose proof (load_store_be32 X1 [] H1) as E1.
  pose proof (load_store_be32 X2 [] H2) as E2.
  pose proof (load_store_be32 X3 [] H3) as E3.
  unfold load_be32, store_be32, rd in *. cbn [Nat.mul Nat.add app nth] in *.
  rewrite E0, E1, E2, E3. reflexivity.
Qed.

Lemma rd_at_offset p off i : rd (at_offset p off) i = rd p (off + i).
Proof.
  unfold rd, at_offset. revert p.
  induction off as [| off IH]; intros p; [reflexivity |].
  destruct p as [| h t]; [destruct i; reflexivity | apply IH].
Qed.

Lemma load_be32_at p i : load_be32 p i = load_be32 (at_offset p (4 * i)) 0.
Proof.
  unfold load_be32. rewrite !rd_at_offset.
  rewrite Nat.mul_0_r, !Nat.add_0_l, Nat.add_0_r. reflexivity.
Qed.

Lemma store_load_block B : block B -> store_block (reverse (load_block B)) = B.
Proof.
  intros [Hlen HB]. explode B Hlen. split_bytes.
  unfold load_block, reverse, store_block.
  rewrite (load_be32_at _ 1), (load_be32_at _ 2), (load_be32_at _ 3).
  cbn [at_offset skipn Nat.mul Nat.add].
  rewrite !store_load_be32 by assumption. reflexivity.
Qed.

Section Feistel.

Variable F : Z -> Z.
Hypothesis F_word : forall x, word32 (F x).

Lemma round_step_ok rk X : words_ok X -> words_ok (round_step F rk X).
Proof.
  destruct X as [[[X0 X1] X2] X3]. intros (H0 & H1 & H2 & H3).
  cbn. auto using word32_lxor.
Qed.

Lemma run_rounds_ok roundKeys order X :
  words_ok X -> words_ok (run_rounds F roundKeys order X).
Proof.
  unfold run_rounds. revert X.
  induction order as [| i order IH]; intros X HX; cbn; [exact HX |].
  apply IH, round_step_ok, HX.
Qed.

(** A round applied to the reversed result of the same round restores
    the reversed input: the structure is an involution whatever [F] is. *)
Lemma round_step_undo rk X :
  round_step F rk (reverse (round_step F rk X)) = reverse X.
Proof.
  destruct X as [[[X0 X1] X2] X3]. cbn. f_equal.
  replace (Z.lxor (Z.lxor (Z.lxor X3 X2) X1) rk)
    with (Z.lxor (Z.lxor (Z.lxor X1 X2) X3) rk).
  - rewrite Z.lxor_assoc, Z.lxor_nilpotent, Z.lxor_0_r. reflexivity.
  - f_equal. rewrite (Z.lxor_comm X1 X2), (Z.lxor_comm (Z.lxor X2 X1) X3).
    rewrite Z.lxor_assoc. reflexivity.
Qed.

Lemma run_rounds_undo roundKeys order X :
  run_rounds F roundKeys (rev order) (reverse (run_rounds F roundKeys order X))
  = reverse X.
Proof.
  unfold run_rounds. revert X.
  induction order as [| i order IH] using rev_ind; intros X; [reflexivity |].
  rewrite rev_app_distr, !fold_left_app. cbn [rev app fold_left].
  rewrite round_step_undo. apply IH.
Qed.

Lemma run_rounds_redo roundKeys order X :
  run_rounds F roundKeys order (reverse (run_rounds F roundKeys (rev order) X))
  = reverse X.
Proof.
  rewrite <- (rev_involutive order) at 1. apply run_rounds_undo.
Qed.

Lemma crypt_block roundKeys order input : block (crypt F roundKeys order input).
Proof.
  unfold crypt.
  destruct (run_rounds F roundKeys order (load_block input)) as [[[X0 X1] X2] X3].
  split; [reflexivity |].
  unfold store_block, bytes.
  repeat (apply Forall_app; split); apply store_be32_bytes.
Qed.

Lemma crypt_inverse roundKeys B :
  block B -> crypt F roundKeys down32 (crypt F roundKeys up32 B) = B.
Proof.
  intros HB. unfold crypt. rewrite load_store_block.
  - unfold down32, up32. rewrite run_rounds_undo. apply store_load_block, HB.
  - apply run_rounds_ok, load_block_ok, HB.
Qed.

End Feistel.

(** ** The round functions of the three back ends *)

Lemma rd_bytes l k : bytes l -> byte (rd l k).
Proof.
  intros Hl. unfold rd. destruct (nth_in_or_default k l 0) as [Hin | ->].
  - unfold bytes in Hl. rewrite Forall_forall in Hl. auto.
  - unfold byte. lia.
Qed.

Lemma SBOX_bytes : bytes SM4.SBOX.
Proof.
  unfold bytes. apply Forall_forall. intros b Hb.
  assert (Hall : forallb (fun b => (0 <=? b) && (b <? 2 ^ 8)) SM4.SBOX = true)
    by (vm_compute; reflexivity).
  rewrite forallb_forall in Hall. specialize (Hall b Hb).
  apply andb_true_iff in Hall. unfold byte. lia.
Qed.

Lemma sbox_byte x : byte (SM4.sbox x).
Proof. unfold SM4.sbox. apply rd_bytes, SBOX_bytes. Qed.

Lemma leftRotate_word v k : word32 (SM4.leftRotate v k).
Proof. apply u32_word. Qed.

Lemma linearTransform_word v : word32 (SM4.linearTransform v).
Proof. apply u32_word. Qed.

Lemma leftRotate_lxor a b k :
  0 <= k <= 32 -> word32 a -> word32 b ->
  SM4.leftRotate (Z.lxor a b) k = Z.lxor (SM4.leftRotate a k) (SM4.leftRotate b k).
Proof.
  intros Hk Ha Hb. unfold SM4.leftRotate. in_range Ha. in_range Hb. bits.
Qed.

(** [linearTransform] distributes over exclusive or: it is built from
    rotations. *)
Lemma linearTransform_lxor a b :
  word32 a -> word32 b ->
  SM4.linearTransform (Z.lxor a b)
  = Z.lxor (SM4.linearTransform a) (SM4.linearTransform b).
Proof.
  intros Ha Hb. unfold SM4.linearTransform.
  rewrite !leftRotate_lxor by (assumption || lia).
  pose proof (leftRotate_word a 2) as A2. pose proof (leftRotate_word b 2) as B2.
  pose proof (leftRotate_word a 10) as A10. pose proof (leftRotate_word b 10) as B10.
  pose proof (leftRotate_word a 18) as A18. pose proof (leftRotate_word b 18) as B18.
  pose proof (leftRotate_word a 24) as A24. pose proof (leftRotate_word b 24) as B24.
  generalize dependent (SM4.leftRotate a 2). generalize dependent (SM4.leftRotate b 2).
  generalize dependent (SM4.leftRotate a 10). generalize dependent (SM4.leftRotate b 10).
  generalize dependent (SM4.leftRotate a 18). generalize dependent (SM4.leftRotate b 18).
  generalize dependent (SM4.leftRotate a 24). generalize dependent (SM4.leftRotate b 24).
  intros. bits.
Qed.

Lemma rd_map_seq (f : nat -> Z) n k :
  (k < n)%nat -> rd (map f (seq 0 n)) k = f k.
Proof.
  intros Hk. unfold rd.
  rewrite nth_indep with (d' := f 0%nat) by (rewrite length_map, length_seq; exact Hk).
  rewrite map_nth, seq_nth by exact Hk. reflexivity.
Qed.

Lemma table_lookup shift b :
  byte b ->
  rd (TTable.table shift) (Z.to_nat b)
  = SM4.linearTransform (u32 (Z.shiftl (SM4.sbox b) shift)).
Proof.
  intros Hb. unfold TTable.table.
  rewrite rd_map_seq by (unfold byte in Hb; lia).
  rewrite Z2Nat.id by (unfold byte in Hb; lia). reflexivity.
Qed.

(** The word that the in-place substitution leaves, as the exclusive or
    of its four bytes in position. *)
Lemma bytes_in_position s0 s1 s2 s3 :
  byte s0 -> byte s1 -> byte s2 -> byte s3 ->
  Z.lor (Z.lor (Z.lor s0 (Z.shiftl s1 8)) (Z.shiftl s2 16)) (Z.shiftl s3 24)
  = Z.lxor (Z.lxor (Z.lxor (Z.shiftl s3 24) (Z.shiftl s2 16)) (Z.shiftl s1 8)) s0.
Proof.
  intros H0 H1 H2 H3. in_range H0. in_range H1. in_range H2. in_range H3. bits.
Qed.

Lemma sbox_in_place_word w : word32 (SM4.sbox_in_place w).
Proof.
  unfold SM4.sbox_in_place.
  repeat apply word32_lor;
    try (apply byte_word32_shiftl; [lia | apply sbox_byte]).
  apply byte_word32, sbox_byte.
Qed.

(** The fused table look-ups of [TTable::feistelFunction] compute the
    substitution of the four bytes followed by [linearTransform]. *)
Lemma ttable_round_function w :
  TTable.feistelFunction w = AESNI.round_function w.
Proof.
  unfold TTable.feistelFunction, AESNI.round_function.
  unfold TTable.T0, TTable.T1, TTable.T2, TTable.T3.
  rewrite !table_lookup by apply u8_byte.
  unfold SM4.sbox_in_place.
  assert (Hu : forall x, SM4.sbox (u8 x) = SM4.sbox x).
  { intros x. unfold SM4.sbox. f_equal. f_equal. apply u8_id, u8_byte. }
  rewrite !Hu.
  pose proof (sbox_byte (Z.shiftr w 24)) as H3.
  pose proof (sbox_byte (Z.shiftr w 16)) as H2.
  pose proof (sbox_byte (Z.shiftr w 8)) as H1.
  pose proof (sbox_byte w) as H0.
  generalize dependent (SM4.sbox (Z.shiftr w 24)). intros s3 H3.
  generalize dependent (SM4.sbox (Z.shiftr w 16)). intros s2 H2.
  generalize dependent (SM4.sbox (Z.shiftr w 8)). intros s1 H1.
  generalize dependent (SM4.sbox w). intros s0 H0.
  rewrite bytes_in_position by assumption.
  rewrite !u32_id by (apply byte_word32_shiftl; [lia | assumption]).
  rewrite Z.shiftl_0_r.
  rewrite !linearTransform_lxor;
    repeat apply word32_lxor;
    try (apply byte_word32_shiftl; [lia | assumption]);
    try (apply byte_word32; assumption).
  reflexivity.
Qed.

(** The rotations that [sm4_modern.cpp] writes in line are [leftRotate]. *)
Lemma inline_rotation s k :
  0 <= k <= 32 -> word32 s ->
  Z.lor (u32 (Z.shiftl s k)) (Z.shiftr s (32 - k)) = SM4.leftRotate s k.
Proof.
  intros Hk Hs. unfold SM4.leftRotate. in_range Hs. bits.
Qed.

Lemma avx_round_function w :
  ModernISA.feistelFunctionAVX w = AESNI.round_function w.
Proof.
  unfold ModernISA.feistelFunctionAVX, AESNI.round_function.
  change 0xFF with (Z.ones 8). rewrite !Z.land_ones by lia.
  change (SM4.sbox (w mod 2 ^ 8)) with (SM4.sbox (u8 w)).
  change (SM4.sbox (Z.shiftr w 8 mod 2 ^ 8)) with (SM4.sbox (u8 (Z.shiftr w 8))).
  change (SM4.sbox (Z.shiftr w 16 mod 2 ^ 8)) with (SM4.sbox (u8 (Z.shiftr w 16))).
  change (SM4.sbox (Z.shiftr w 24 mod 2 ^ 8)) with (SM4.sbox (u8 (Z.shiftr w 24))).
  fold (SM4.sbox_in_place w).
  pose proof (sbox_in_place_word w) as Hs.
  rewrite (u32_id _ Hs).
  generalize dependent (SM4.sbox_in_place w). intros s Hs.
  change 30 with (32 - 2). change 22 with (32 - 10).
  change 14 with (32 - 18). change 8 with (32 - 24).
  rewrite !inline_rotation by (assumption || lia).
  unfold SM4.linearTransform. symmetry. apply u32_id.
  repeat apply word32_lxor; try apply leftRotate_word. exact Hs.
Qed.

Lemma modern_round_function avxSupported w :
  ModernISA.round_function avxSupported w = AESNI.round_function w.
Proof.
  unfold ModernISA.round_function.
  destruct avxSupported; [apply avx_round_function |].
  unfold AESNI.round_function. reflexivity.
Qed.

Lemma aesni_round_word w : word32 (AESNI.round_function w).
Proof. apply linearTransform_word. Qed.

Lemma ttable_round_word w : word32 (TTable.feistelFunction w).
Proof. rewrite ttable_round_function. apply aesni_round_word. Qed.

Lemma modern_round_word avxSupported w :
  word32 (ModernISA.round_function avxSupported w).
Proof. rewrite modern_round_function. apply aesni_round_word. Qed.

(** Two round functions that agree give the same rounds. *)
Lemma run_rounds_ext F G roundKeys order X :
  (forall w, F w = G w) ->
  run_rounds F roundKeys order X = run_rounds G roundKeys order X.
Proof.
  intros HFG. unfold run_rounds. revert X.
  induction order as [| i order IH]; intros X; cbn [fold_left]; [reflexivity |].
  rewrite IH. f_equal.
  destruct X as [[[X0 X1] X2] X3]. unfold round_step. rewrite HFG. reflexivity.
Qed.

Lemma crypt_ext F G roundKeys order input :
  (forall w, F w = G w) ->
  crypt F roundKeys order input = crypt G roundKeys order input.
Proof. intros HFG. unfold crypt. rewrite (run_rounds_ext F G) by exact HFG. reflexivity. Qed.

(** ** Claims on the block cipher *)

(** C1. For every key and every 16-byte block, after [setKey] on each
    back end (T-table, AES-NI, modern ISA with its capability flag set or
    not), [decrypt] of [encrypt] of the block is the block. *)
Theorem decrypt_encrypt (key B : list Z) (avxSupported : bool) :
  block B ->
  TTable.decrypt (TTable.setKey key) (TTable.encrypt (TTable.setKey key) B) = B
  /\ AESNI.decrypt (AESNI.setKey key) (AESNI.encrypt (AESNI.setKey key) B) = B
  /\ ModernISA.decrypt avxSupported (ModernISA.setKey key)
       (ModernISA.encrypt avxSupported (ModernISA.setKey key) B) = B.
Proof.
  intros HB.
  generalize (TTable.setKey key) as rkT.
  generalize (AESNI.setKey key) as rkA.
  generalize (ModernISA.setKey key) as rkM.
  intros rkM rkA rkT. repeat split.
  - unfold TTable.decrypt, TTable.encrypt.
    apply crypt_inverse; [apply ttable_round_word | exact HB].
  - unfold AESNI.decrypt, AESNI.encrypt.
    apply crypt_inverse; [apply aesni_round_word | exact HB].
  - unfold ModernISA.decrypt, ModernISA.encrypt.
    apply crypt_inverse; [apply modern_round_word | exact HB].
Qed.

Lemma decrypt_encrypt_witness :
  block test_plaintext
  /\ TTable.decrypt (TTable.setKey test_key)
       (TTable.encrypt (TTable.setKey test_key) test_plaintext) = test_plaintext.
Proof.
  assert (HB : block test_plaintext).
  { split; [reflexivity |]. unfold bytes, test_plaintext.
    repeat constructor; unfold byte; lia. }
  split; [exact HB |].
  apply (decrypt_encrypt test_key test_plaintext true HB).
Defined.

(** C2. The back ends produce the same [encrypt] output for every key
    and block: the fused look-ups [T0[b0] ^ T1[b1] ^ T2[b2] ^ T3[b3]],
    with [Tk[b] = linearTransform(sbox(b) << (24 - 8k))], are the S-box on
    each byte of the round input followed by [linearTransform]. *)
Theorem backends_agree (key B : list Z) (avxSupported : bool) (w b : Z) :
  TTable.encrypt (TTable.setKey key) B = AESNI.encrypt (AESNI.setKey key) B
  /\ ModernISA.encrypt avxSupported (ModernISA.setKey key) B
     = AESNI.encrypt (AESNI.setKey key) B
  /\ rd TTable.T0 (Z.to_nat (u8 b)) = SM4.linearTransform (u32 (Z.shiftl (SM4.sbox (u8 b)) 24))
  /\ rd TTable.T1 (Z.to_nat (u8 b)) = SM4.linearTransform (u32 (Z.shiftl (SM4.sbox (u8 b)) 16))
  /\ rd TTable.T2 (Z.to_nat (u8 b)) = SM4.linearTransform (u32 (Z.shiftl (SM4.sbox (u8 b)) 8))
  /\ rd TTable.T3 (Z.to_nat (u8 b)) = SM4.linearTransform (u32 (Z.shiftl (SM4.sbox (u8 b)) 0))
  /\ TTable.feistelFunction w = SM4.linearTransform (SM4.sbox_in_place w).
Proof.
  unfold TTable.setKey, TTable.keyExpansion, AESNI.setKey, AESNI.keyExpansion,
    ModernISA.setKey, ModernISA.keyExpansion.
  generalize (SM4.expand_key key) as rk. intros rk.
  split; [| split].
  - unfold TTable.encrypt, AESNI.encrypt.
    apply crypt_ext, ttable_round_function.
  - unfold ModernISA.encrypt, AESNI.encrypt.
    apply crypt_ext, modern_round_function.
  - unfold TTable.T0, TTable.T1, TTable.T2, TTable.T3.
    rewrite !table_lookup by apply u8_byte.
    rewrite ttable_round_function. unfold AESNI.round_function.
    repeat split; reflexivity.
Qed.

(** C3. With the key 0123456789abcdeffedcba9876543210, the plaintext
    0123456789abcdeffedcba9876543210 is enciphered to
    681edf34d206965e86b3e94f536e4246 by every back end. *)
Theorem known_answer :
  TTable.encrypt (TTable.setKey test_key) test_plaintext = expected_ciphertext
  /\ AESNI.encrypt (AESNI.setKey test_key) test_plaintext = expected_ciphertext
  /\ ModernISA.encrypt true (ModernISA.setKey test_key) test_plaintext
     = expected_ciphertext
  /\ ModernISA.encrypt false (ModernISA.setKey test_key) test_plaintext
     = expected_ciphertext.
Proof. repeat split; vm_compute; reflexivity. Qed.

(** ** Buffers *)

Lemma wr_length p i v : length (wr p i v) = length p.
Proof.
  revert i. induction p as [| h t IH]; intros i; [reflexivity |].
  destruct i; cbn; [reflexivity | rewrite IH; reflexivity].
Qed.

Lemma rd_wr_same p i v : (i < length p)%nat -> rd (wr p i v) i = v.
Proof.
  unfold rd. revert i. induction p as [| h t IH]; intros i Hi; cbn in Hi; [lia |].
  destruct i; cbn; [reflexivity | apply IH; lia].
Qed.

Lemma rd_wr_other p i v k : k <> i -> rd (wr p i v) k = rd p k.
Proof.
  unfold rd. revert i k. induction p as [| h t IH]; intros i k Hk; [reflexivity |].
  destruct i, k; cbn; try reflexivity; try congruence.
  apply IH. congruence.
Qed.

Lemma wr_split p i v :
  (i < length p)%nat -> wr p i v = firstn i p ++ v :: skipn (S i) p.
Proof.
  revert i. induction p as [| h t IH]; intros i Hi; cbn in Hi; [lia |].
  destruct i; [reflexivity |].
  cbn [wr firstn skipn app]. rewrite IH by lia. reflexivity.
Qed.

Lemma blit_length out off l : length (blit out off l) = length out.
Proof.
  revert out off. induction l as [| v t IH]; intros out off; [reflexivity |].
  cbn. rewrite IH, wr_length. reflexivity.
Qed.

Lemma blit_cons h t off l : blit (h :: t) (S off) l = h :: blit t off l.
Proof.
  revert h t off. induction l as [| v l IH]; intros h t off; [reflexivity |].
  cbn [blit wr]. apply IH.
Qed.

Lemma blit_front out l :
  (length l <= length out)%nat -> blit out 0 l = l ++ skipn (length l) out.
Proof.
  revert out. induction l as [| v l IH]; intros out Hlen; [reflexivity |].
  destruct out as [| h t]; cbn [length] in Hlen; [lia |].
  cbn [blit wr]. rewrite blit_cons, IH by lia. reflexivity.
Qed.

Lemma blit_split out off l :
  (off + length l <= length out)%nat ->
  blit out off l = firstn off out ++ l ++ skipn (off + length l) out.
Proof.
  revert out. induction off as [| off IH]; intros out Hlen.
  - apply blit_front. exact Hlen.
  - destruct out as [| h t]; cbn [length] in Hlen; [lia |].
    rewrite blit_cons, IH by lia. reflexivity.
Qed.

Lemma rd_firstn p n k : (k < n)%nat -> rd (firstn n p) k = rd p k.
Proof.
  unfold rd. revert p k. induction n as [| n IH]; intros p k Hk; [lia |].
  destruct p as [| h t]; [reflexivity |].
  destruct k; cbn; [reflexivity | apply IH; lia].
Qed.

(** A block routine reads sixteen bytes through its pointer. *)
Lemma crypt_firstn F roundKeys order p :
  crypt F roundKeys order (firstn 16 p) = crypt F roundKeys order p.
Proof.
  unfold crypt, load_block, load_be32.
  rewrite !rd_firstn by (cbn; lia). reflexivity.
Qed.

Lemma fold_left_shift {A : Type} (g : A -> nat -> A) c s n a :
  fold_left (fun a i => g a (c + i)%nat) (seq s n) a = fold_left g (seq (c + s) n) a.
Proof.
  revert s a. induction n as [| n IH]; intros s a; [reflexivity |].
  cbn [seq fold_left]. rewrite IH. repeat f_equal. lia.
Qed.

(** ** Batches of the modern-ISA back end *)

(** A round in lockstep is a round of each of the four states: the
    steps of the inner loop touch disjoint quarters of [X]. *)
Lemma batch_round_lanes rk A B C D :
  ModernISA.batch_round rk (side_by_side A B C D)
  = side_by_side (round_step ModernISA.feistelFunctionAVX rk A)
                 (round_step ModernISA.feistelFunctionAVX rk B)
                 (round_step ModernISA.feistelFunctionAVX rk C)
                 (round_step ModernISA.feistelFunctionAVX rk D).
Proof.
  destruct A as [[[A0 A1] A2] A3], B as [[[B0 B1] B2] B3],
           C as [[[C0 C1] C2] C3], D as [[[D0 D1] D2] D3].
  cbv [ModernISA.batch_round ModernISA.lane_step side_by_side round_step
       fold_left seq rd wr nth Nat.mul Nat.add].
  reflexivity.
Qed.

Lemma batch_rounds_lanes roundKeys rounds A B C D :
  fold_left (fun X round => ModernISA.batch_round (rd roundKeys round) X) rounds
            (side_by_side A B C D)
  = side_by_side (run_rounds ModernISA.feistelFunctionAVX roundKeys rounds A)
                 (run_rounds ModernISA.feistelFunctionAVX roundKeys rounds B)
                 (run_rounds ModernISA.feistelFunctionAVX roundKeys rounds C)
                 (run_rounds ModernISA.feistelFunctionAVX roundKeys rounds D).
Proof.
  unfold run_rounds. revert A B C D.
  induction rounds as [| r rounds IH]; intros A B C D; [reflexivity |].
  cbn [fold_left]. rewrite batch_round_lanes. apply IH.
Qed.

Lemma load4_lanes input b :
  ModernISA.load4 input b
  = side_by_side (load_block (at_offset input ((b + 0) * 16)))
                 (load_block (at_offset input ((b + 1) * 16)))
                 (load_block (at_offset input ((b + 2) * 16)))
                 (load_block (at_offset input ((b + 3) * 16))).
Proof. reflexivity. Qed.

Lemma store4_lanes A B C D out b :
  ModernISA.store4 (side_by_side A B C D) out b
  = blit (blit (blit (blit out ((b + 0) * 16) (store_block A))
                     ((b + 1) * 16) (store_block B))
               ((b + 2) * 16) (store_block C))
         ((b + 3) * 16) (store_block D).
Proof.
  destruct A as [[[A0 A1] A2] A3], B as [[[B0 B1] B2] B3],
           C as [[[C0 C1] C2] C3], D as [[[D0 D1] D2] D3].
  reflexivity.
Qed.

(** A batch of four is four single-block calls in a row. *)
Lemma batch4_calls rounds roundKeys input out b :
  ModernISA.batch4 rounds roundKeys input out b
  = fold_left (single_call rounds true roundKeys input) (seq b 4) out.
Proof.
  unfold ModernISA.batch4.
  rewrite load4_lanes, batch_rounds_lanes, store4_lanes.
  cbn [seq fold_left]. unfold single_call, crypt.
  change (ModernISA.round_function true) with ModernISA.feistelFunctionAVX.
  replace (S b) with (b + 1)%nat by lia.
  replace (S (b + 1)) with (b + 2)%nat by lia.
  replace (S (b + 2)) with (b + 3)%nat by lia.
  replace (b * 16)%nat with ((b + 0) * 16)%nat by lia.
  reflexivity.
Qed.

Lemma batches_calls rounds roundKeys input out q :
  fold_left (ModernISA.batch4 rounds roundKeys input)
            (map (fun q => (4 * q)%nat) (seq 0 q)) out
  = fold_left (single_call rounds true roundKeys input) (seq 0 (4 * q)) out.
Proof.
  induction q as [| q IH]; [reflexivity |].
  rewrite seq_S, map_app, fold_left_app, IH. cbn [map fold_left Nat.add].
  rewrite batch4_calls.
  replace (4 * S q)%nat with (4 * q + 4)%nat by lia.
  rewrite seq_app, fold_left_app. reflexivity.
Qed.

(** The batch routine with the round order [rounds], in both branches,
    is the loop of single-block calls over all blocks. *)
Lemma blocks_calls rounds avxSupported roundKeys input out blockCount :
  (if avxSupported && (4 <=? blockCount)%nat then
     let out := fold_left (ModernISA.batch4 rounds roundKeys input)
                          (ModernISA.batch_starts blockCount) out in
     let remaining := (blockCount mod 4)%nat in
     fold_left (fun out i =>
                  let k := (blockCount - remaining + i)%nat in
                  blit out (k * 16)
                       (crypt (ModernISA.round_function avxSupported) roundKeys rounds
                              (at_offset input (k * 16))))
               (seq 0 remaining) out
   else
     fold_left (fun out i =>
                  blit out (i * 16)
                       (crypt (ModernISA.round_function avxSupported) roundKeys rounds
                              (at_offset input (i * 16))))
               (seq 0 blockCount) out)
  = fold_left (single_call rounds avxSupported roundKeys input) (seq 0 blockCount) out.
Proof.
  destruct (avxSupported && (4 <=? blockCount)%nat) eqn:Hbranch; [| reflexivity].
  apply andb_true_iff in Hbranch. destruct Hbranch as [-> _].
  cbv zeta. unfold ModernISA.batch_starts. rewrite batches_calls.
  change (fun out i =>
            blit out ((blockCount - blockCount mod 4 + i) * 16)
                 (crypt (ModernISA.round_function true) roundKeys rounds
                    (at_offset input ((blockCount - blockCount mod 4 + i) * 16))))
    with (fun out i => single_call rounds true roundKeys input out
                         (blockCount - blockCount mod 4 + i)%nat).
  rewrite (fold_left_shift (single_call rounds true roundKeys input)).
  pose proof (Nat.div_mod_eq blockCount 4) as Hdm.
  replace (blockCount - blockCount mod 4 + 0)%nat with (4 * (blockCount / 4))%nat by lia.
  rewrite <- fold_left_app, <- seq_app.
  replace (4 * (blockCount / 4) + blockCount mod 4)%nat with blockCount by lia.
  reflexivity.
Qed.

Lemma concat_blocks_length (f : nat -> list Z) l :
  (forall i, length (f i) = 16%nat) ->
  length (concat (map f l)) = (length l * 16)%nat.
Proof.
  intros Hf. induction l as [| i l IH]; [reflexivity |].
  cbn [map concat length]. rewrite length_app, Hf, IH. lia.
Qed.

(** The loop of single-block calls leaves, block after block, the
    results of the calls, and the rest of the output buffer as it was. *)
Lemma calls_content rounds avxSupported roundKeys input out n :
  (n * 16 <= length out)%nat ->
  fold_left (single_call rounds avxSupported roundKeys input) (seq 0 n) out
  = concat (map (fun i => crypt (ModernISA.round_function avxSupported) roundKeys rounds
                               (block_of input i))
                (seq 0 n))
    ++ skipn (n * 16) out.
Proof.
  induction n as [| n IH]; intros Hlen; [reflexivity |].
  rewrite seq_S, fold_left_app, map_app, concat_app. cbn [Nat.add fold_left map concat].
  rewrite IH by lia. unfold single_call at 1.
  set (done := concat (map _ (seq 0 n))).
  assert (Hdone : length done = (n * 16)%nat).
  { unfold done. rewrite concat_blocks_length, length_seq; [reflexivity |].
    intros i. apply crypt_block. }
  set (e := crypt _ roundKeys rounds (at_offset input (n * 16))).
  assert (He : length e = 16%nat) by apply crypt_block.
  rewrite blit_split by (rewrite length_app, length_skipn, He; lia).
  rewrite firstn_app, Hdone, Nat.sub_diag, firstn_O, app_nil_r.
  rewrite firstn_all2 by lia.
  rewrite skipn_app, Hdone, He.
  rewrite skipn_all2 by lia.
  replace (n * 16 + 16 - n * 16)%nat with 16%nat by lia.
  rewrite skipn_skipn. cbn [app]. unfold block_of. rewrite crypt_firstn. fold e.
  rewrite app_nil_r, <- app_assoc.
  replace (16 + n * 16)%nat with (S n * 16)%nat by lia. reflexivity.
Qed.

(** C6. For every key, every block count and every input,
    [encryptBlocks] (and [decryptBlocks]) of the modern-ISA back end
    leaves in the output buffer the results of the single-block [encrypt]
    ([decrypt]) on the input blocks, one after the other in input order,
    whether the capability flag is set (batches of four in lockstep, then
    the remainder) or not. *)
Theorem blocks_are_single_calls (avxSupported : bool) (key input out : list Z)
    (blockCount : nat) :
  (blockCount * 16 <= length out)%nat ->
  ModernISA.encryptBlocks avxSupported (ModernISA.setKey key) input out blockCount
  = concat (map (fun i => ModernISA.encrypt avxSupported (ModernISA.setKey key)
                            (block_of input i))
                (seq 0 blockCount))
    ++ skipn (blockCount * 16) out
  /\ ModernISA.decryptBlocks avxSupported (ModernISA.setKey key) input out blockCount
     = concat (map (fun i => ModernISA.decrypt avxSupported (ModernISA.setKey key)
                               (block_of input i))
                   (seq 0 blockCount))
       ++ skipn (blockCount * 16) out.
Proof.
  intros Hlen. generalize (ModernISA.setKey key) as roundKeys. intros roundKeys.
  unfold ModernISA.encryptBlocks, ModernISA.decryptBlocks,
    ModernISA.encrypt, ModernISA.decrypt.
  split.
  - rewrite (blocks_calls up32). apply calls_content, Hlen.
  - rewrite (blocks_calls down32). apply calls_content, Hlen.
Qed.

Lemma blocks_are_single_calls_witness :
  (5 * 16 <= length (repeat 0 80))%nat
  /\ ModernISA.encryptBlocks true (ModernISA.setKey test_key) five_blocks (repeat 0 80) 5
     = concat (map (fun i => ModernISA.encrypt true (ModernISA.setKey test_key)
                               (block_of five_blocks i))
                   (seq 0 5))
       ++ skipn (5 * 16) (repeat 0 80).
Proof.
  assert (Hlen : (5 * 16 <= length (repeat 0 80))%nat) by (vm_compute; lia).
  split; [exact Hlen |].
  exact (proj1 (blocks_are_single_calls true test_key five_blocks (repeat 0 80) 5 Hlen)).
Defined.

(** ** Counter mode *)

Lemma xor_loop_rd input ks off count output k :
  (off + count <= length output)%nat ->
  rd (fold_left (fun output j =>
                   wr output (off + j) (Z.lxor (rd input (off + j)) (rd ks j)))
                (seq 0 count) output) k
  = if ((off <=? k) && (k <? off + count))%nat
    then Z.lxor (rd input k) (rd ks (k - off))
    else rd output k.
Proof.
  induction count as [| count IH]; intros Hlen.
  - cbn [seq fold_left].
    destruct (off <=? k)%nat eqn:E1, (k <? off + 0)%nat eqn:E2; cbn [andb]; try reflexivity.
    apply Nat.leb_le in E1. apply Nat.ltb_lt in E2. lia.
  - rewrite seq_S, fold_left_app. cbn [Nat.add fold_left].
    destruct (Nat.eq_dec k (off + count)) as [-> | Hne].
    + rewrite rd_wr_same.
      * replace ((off <=? off + count) && (off + count <? off + S count))%nat with true.
        -- repeat f_equal. lia.
        -- symmetry. apply andb_true_iff. split; [apply Nat.leb_le | apply Nat.ltb_lt]; lia.
      * clear IH. 
        assert (Hl : forall n out, length (fold_left (fun output j =>
                   wr output (off + j) (Z.lxor (rd input (off + j)) (rd ks j)))
                (seq 0 n) out) = length out).
        { intros n. induction n as [| n IHn]; intros out; [reflexivity |].
          rewrite seq_S, fold_left_app. cbn [Nat.add fold_left].
          rewrite wr_length. apply IHn. }
        rewrite Hl. lia.
    + rewrite rd_wr_other by exact Hne. rewrite IH by lia.
      destruct (off <=? k)%nat eqn:E1; cbn [andb]; [| reflexivity].
      destruct (k <? off + count)%nat eqn:E2, (k <? off + S count)%nat eqn:E3;
        try reflexivity.
      * apply Nat.ltb_lt in E2. apply Nat.ltb_ge in E3. lia.
      * apply Nat.ltb_ge in E2. apply Nat.ltb_lt in E3. lia.
Qed.

Lemma xor_loop_length input ks off count output :
  length (fold_left (fun output j =>
                       wr output (off + j) (Z.lxor (rd input (off + j)) (rd ks j)))
                    (seq 0 count) output)
  = length output.
Proof.
  induction count as [| n IHn]; [reflexivity |].
  rewrite seq_S, fold_left_app. cbn [Nat.add fold_left].
  rewrite wr_length. apply IHn.
Qed.

(** One pass of the loop extends what is done by [count] bytes. *)
Lemma ctr_block_done self j0 input output i count out' :
  (count <= 16)%nat ->
  (i * 16 + count <= length output)%nat ->
  ctr_done self j0 input output (i * 16) out' ->
  let st := SM4_GCM.ctr_block self input (i * 16) count (counter_after j0 i, out') in
  fst st = counter_after j0 (S i)
  /\ ctr_done self j0 input output (i * 16 + count) (snd st).
Proof.
  intros Hcount Hlen [Hl Hrd]. unfold SM4_GCM.ctr_block. cbn [fst snd].
  split; [reflexivity |]. split.
  - rewrite xor_loop_length. exact Hl.
  - intros k. rewrite xor_loop_rd by lia. rewrite Hrd.
    destruct (i * 16 <=? k)%nat eqn:E1, (k <? i * 16 + count)%nat eqn:E2; cbn [andb].
    + apply Nat.leb_le in E1. apply Nat.ltb_lt in E2.
      unfold keystream_byte.
      replace (k / 16)%nat with i by (apply Nat.div_unique with (k - i * 16)%nat; lia).
      replace (k mod 16)%nat with (k - i * 16)%nat
        by (apply Nat.mod_unique with i; lia).
      fold (counter_after j0 (S i)).
      replace (k <? i * 16)%nat with false by (symmetry; apply Nat.ltb_ge; lia).
      reflexivity.
    + apply Nat.leb_le in E1. apply Nat.ltb_ge in E2.
      replace (k <? i * 16)%nat with false by (symmetry; apply Nat.ltb_ge; lia).
      reflexivity.
    + apply Nat.leb_gt in E1. apply Nat.ltb_lt in E2.
      replace (k <? i * 16)%nat with true by (symmetry; apply Nat.ltb_lt; lia).
      reflexivity.
    + apply Nat.leb_gt in E1. apply Nat.ltb_ge in E2. lia.
Qed.

Lemma ctr_full_blocks_done self j0 input output n :
  (n * 16 <= length output)%nat ->
  let st := fold_left (fun st i => SM4_GCM.ctr_block self input (i * 16) 16 st)
                      (seq 0 n) (counter_after j0 0, output) in
  fst st = counter_after j0 n
  /\ ctr_done self j0 input output (n * 16) (snd st).
Proof.
  induction n as [| n IH]; intros Hlen.
  - cbn [seq fold_left fst snd]. split; [reflexivity |].
    split; [reflexivity |]. intros k. reflexivity.
  - cbv zeta in *. rewrite seq_S, fold_left_app. cbn [Nat.add fold_left].
    destruct IH as [Hc Hd]; [lia |].
    destruct (fold_left _ (seq 0 n) _) as [c out'] eqn:Est. cbn [fst snd] in Hc, Hd.
    subst c.
    destruct (ctr_block_done self j0 input output n 16 out') as [Hc' Hd'];
      [lia | lia | exact Hd |].
    split; [exact Hc' |].
    replace (S n * 16)%nat with (n * 16 + 16)%nat by lia. exact Hd'.
Qed.

(** The counter-mode part leaves the first [len] bytes of the input
    combined with the key stream, and the rest of the output buffer as
    it was. *)
Lemma ctr_mode_done self j0 input len output :
  (len <= length output)%nat ->
  ctr_done self j0 input output len (SM4_GCM.ctr_mode self j0 input len output).
Proof.
  intros Hlen. unfold SM4_GCM.ctr_mode.
  pose proof (Nat.div_mod_eq len 16) as Hdm.
  pose proof (Nat.mod_upper_bound len 16 ltac:(lia)) as Hmod.
  destruct (ctr_full_blocks_done self j0 input output (len / 16)) as [Hc Hd]; [lia |].
  change (rdn j0 16) with (counter_after j0 0).
  destruct (fold_left _ (seq 0 (len / 16)) _) as [c out'] eqn:Est.
  cbn [fst snd] in Hc, Hd. subst c.
  destruct (0 <? len mod 16)%nat eqn:Hrem.
  - destruct (ctr_block_done self j0 input output (len / 16) (len mod 16) out')
      as [_ Hd']; [lia | lia | exact Hd |].
    replace (len / 16 * 16 + len mod 16)%nat with len in Hd' by lia. exact Hd'.
  - apply Nat.ltb_ge in Hrem. cbn [snd].
    replace (len / 16 * 16)%nat with len in Hd by lia. exact Hd.
Qed.

Lemma list_eq_rd (a b : list Z) :
  length a = length b ->
  (forall k, (k < length a)%nat -> rd a k = rd b k) ->
  a = b.
Proof. intros Hl Hk. apply (nth_ext a b 0 0 Hl). exact Hk. Qed.

Lemma rdn_all p : rdn p (length p) = p.
Proof.
  apply list_eq_rd.
  - unfold rdn. rewrite length_map, length_seq. reflexivity.
  - intros k Hk. unfold rdn in *. rewrite length_map, length_seq in Hk.
    apply rd_map_seq. exact Hk.
Qed.

Lemma rdn_length p n : length (rdn p n) = n.
Proof. unfold rdn. rewrite length_map, length_seq. reflexivity. Qed.

(** The first [n] bytes and the rest of a buffer on which a counter-mode
    loop has run. *)
Lemma ctr_done_rest self j0 input output n out' :
  ctr_done self j0 input output n out' -> skipn n out' = skipn n output.
Proof.
  intros [Hl Hrd]. apply list_eq_rd.
  - rewrite !length_skipn, Hl. reflexivity.
  - intros k _. change (skipn n out') with (at_offset out' n).
    change (skipn n output) with (at_offset output n).
    rewrite !rd_at_offset, Hrd.
    replace (n + k <? n)%nat with false by (symmetry; apply Nat.ltb_ge; lia).
    reflexivity.
Qed.

(** Running counter mode on its own output gives the input back: the
    key stream cancels. *)
Lemma ctr_mode_twice self j0 P ctbuf ptbuf :
  (length P <= length ctbuf)%nat ->
  (length P <= length ptbuf)%nat ->
  firstn (length P)
         (SM4_GCM.ctr_mode self j0 (SM4_GCM.ctr_mode self j0 P (length P) ctbuf)
                           (length P) ptbuf)
  = P.
Proof.
  intros Hc Hp.
  destruct (ctr_mode_done self j0 P (length P) ctbuf Hc) as [Hl1 Hrd1].
  set (ct := SM4_GCM.ctr_mode self j0 P (length P) ctbuf) in *.
  destruct (ctr_mode_done self j0 ct (length P) ptbuf Hp) as [Hl2 Hrd2].
  set (pt := SM4_GCM.ctr_mode self j0 ct (length P) ptbuf) in *.
  apply list_eq_rd.
  - rewrite length_firstn. lia.
  - intros k Hk. rewrite length_firstn in Hk.
    rewrite rd_firstn by lia. rewrite Hrd2, Hrd1.
    replace (k <? length P)%nat with true by (symmetry; apply Nat.ltb_lt; lia).
    rewrite Z.lxor_assoc, Z.lxor_nilpotent, Z.lxor_0_r. reflexivity.
Qed.

(** ** Claims on the GCM mode *)

Lemma xor16_rd a b i : (i < 16)%nat -> rd (SM4_GCM.xor16 a b) i = Z.lxor (rd a i) (rd b i).
Proof. intros Hi. unfold SM4_GCM.xor16. apply rd_map_seq. exact Hi. Qed.

(** The bytes of the tag buffer after [encrypt]. *)
Lemma tag_loop_rd auth_tag tag_mask n tag k :
  (n <= length tag)%nat ->
  rd (fold_left (fun tag i => wr tag i (Z.lxor (rd auth_tag i) (rd tag_mask i)))
                (seq 0 n) tag) k
  = if (k <? n)%nat then Z.lxor (rd auth_tag k) (rd tag_mask k) else rd tag k.
Proof.
  intros Hn.
  pose proof (xor_loop_rd auth_tag tag_mask 0 n tag k Hn) as Hx.
  cbn [Nat.add] in Hx. rewrite Nat.sub_0_r in Hx.
  replace (0 <=? k)%nat with true in Hx by (symmetry; apply Nat.leb_le; lia).
  exact Hx.
Qed.

Lemma gcm_round_trip_any (self : SM4_GCM.t) (P ctbuf tagbuf ptbuf : list Z) (tagLen : nat) :
  SM4_GCM.iv self <> [] ->
  (tagLen <= 16)%nat ->
  (length P <= length ctbuf)%nat ->
  (tagLen <= length tagbuf)%nat ->
  (length P <= length ptbuf)%nat ->
  let enc := SM4_GCM.encrypt self P (length P) ctbuf tagbuf tagLen in
  let ciphertext := snd (fst enc) in
  let tag := snd enc in
  let dec := SM4_GCM.decrypt self ciphertext (length P) tag tagLen ptbuf in
  fst (fst enc) = true
  /\ length ciphertext = length ctbuf
  /\ skipn (length P) ciphertext = skipn (length P) ctbuf
  /\ fst dec = true
  /\ firstn (length P) (snd dec) = P
  /\ skipn (length P) (snd dec) = skipn (length P) ptbuf.
Proof.
  intros Hiv Htag Hct Htb Hpt. cbv zeta.
  unfold SM4_GCM.encrypt, SM4_GCM.decrypt.
  destruct (Nat.eqb (length (SM4_GCM.iv self)) 0) eqn:Hempty.
  { apply Nat.eqb_eq in Hempty. destruct (SM4_GCM.iv self); [congruence | discriminate]. }
  cbn [fst snd].
  set (j0 := SM4_GCM.initial_counter self).
  set (ct := SM4_GCM.ctr_mode self j0 P (length P) ctbuf).
  set (mask := TTable.encrypt (SM4_GCM.sm4 self) j0).
  set (auth := SM4_GCM.auth_hash self ct (length P)).
  pose proof (ctr_mode_done self j0 P (length P) ctbuf Hct) as Hdone. fold ct in Hdone.
  replace (Nat.min tagLen 16) with tagLen by lia.
  assert (Hall : forallb
            (fun i => Z.eqb (rd (SM4_GCM.xor16 auth mask) i)
                        (rd (fold_left (fun tag i =>
                                          wr tag i (Z.lxor (rd auth i) (rd mask i)))
                                       (seq 0 tagLen) tagbuf) i))
            (seq 0 tagLen) = true).
  { apply forallb_forall. intros i Hi. apply in_seq in Hi.
    rewrite xor16_rd by lia. rewrite tag_loop_rd by lia.
    replace (i <? tagLen)%nat with true by (symmetry; apply Nat.ltb_lt; lia).
    apply Z.eqb_refl. }
  rewrite Hall. cbn [fst snd].
  split; [reflexivity |].
  split; [apply Hdone |].
  split; [apply (ctr_done_rest self j0 P ctbuf), Hdone |].
  split; [reflexivity |].
  split; [apply ctr_mode_twice; assumption |].
  apply (ctr_done_rest self j0 ct ptbuf).
  apply ctr_mode_done. exact Hpt.
Qed.

(** C4. For every key, every nonempty IV, every AAD, every plaintext of
    any length and every tag length up to 16: after [setKey], [setIV] and
    [setAAD], [encrypt] succeeds, writes as many ciphertext bytes as there
    are plaintext bytes (the rest of the buffer is untouched) and a tag;
    [decrypt] of that ciphertext with that tag in the same session
    succeeds and returns the plaintext. *)
Theorem gcm_round_trip (self0 : SM4_GCM.t)
    (key iv_data aad_data P ctbuf tagbuf ptbuf : list Z) (tagLen : nat) :
  iv_data <> [] ->
  (tagLen <= 16)%nat ->
  (length P <= length ctbuf)%nat ->
  (tagLen <= length tagbuf)%nat ->
  (length P <= length ptbuf)%nat ->
  let self := SM4_GCM.setAAD aad_data (length aad_data)
                (SM4_GCM.setIV iv_data (length iv_data) (SM4_GCM.setKey key self0)) in
  let enc := SM4_GCM.encrypt self P (length P) ctbuf tagbuf tagLen in
  let ciphertext := snd (fst enc) in
  let tag := snd enc in
  let dec := SM4_GCM.decrypt self ciphertext (length P) tag tagLen ptbuf in
  fst (fst enc) = true
  /\ length ciphertext = length ctbuf
  /\ skipn (length P) ciphertext = skipn (length P) ctbuf
  /\ fst dec = true
  /\ firstn (length P) (snd dec) = P
  /\ skipn (length P) (snd dec) = skipn (length P) ptbuf.
Proof.
  intros Hiv Htag Hct Htb Hpt self.
  apply gcm_round_trip_any; try assumption.
  unfold self, SM4_GCM.setAAD, SM4_GCM.setIV. cbn [SM4_GCM.iv].
  rewrite rdn_all. exact Hiv.
Qed.

Lemma gcm_round_trip_witness :
  test_iv <> []
  /\ (let self := SM4_GCM.setAAD test_aad (length test_aad)
                    (SM4_GCM.setIV test_iv (length test_iv)
                       (SM4_GCM.setKey test_key fresh)) in
      let enc := SM4_GCM.encrypt self hello (length hello) (repeat 0 32) (repeat 0 16) 16 in
      let ciphertext := snd (fst enc) in
      let tag := snd enc in
      let dec := SM4_GCM.decrypt self ciphertext (length hello) tag 16 (repeat 0 32) in
      fst (fst enc) = true
      /\ length ciphertext = length (repeat 0 32)
      /\ skipn (length hello) ciphertext = skipn (length hello) (repeat 0 32)
      /\ fst dec = true
      /\ firstn (length hello) (snd dec) = hello
      /\ skipn (length hello) (snd dec) = skipn (length hello) (repeat 0 32)).
Proof.
  split; [discriminate |].
  apply (gcm_round_trip fresh test_key test_iv test_aad hello
           (repeat 0 32) (repeat 0 16) (repeat 0 32) 16).
  - discriminate.
  - lia.
  - cbn [length hello repeat]. lia.
  - cbn [length repeat]. lia.
  - cbn [length hello repeat]. lia.
Defined.

(** C5. When [decrypt] is called with an IV set and one of the first
    [min(tagLen, 16)] bytes of the supplied tag differs from the tag
    recomputed from the ciphertext, it reports failure and the plaintext
    buffer is left as it was: the comparison comes before the counter-mode
    part, which is not run. *)
Theorem tag_mismatch_fails (self : SM4_GCM.t) (ciphertext : list Z) (ctLen : nat)
    (tag : list Z) (tagLen : nat) (plaintext : list Z) (i : nat) :
  SM4_GCM.iv self <> [] ->
  (i < Nat.min tagLen 16)%nat ->
  rd tag i <> rd (expected_tag self ciphertext ctLen) i ->
  SM4_GCM.decrypt self ciphertext ctLen tag tagLen plaintext = (false, plaintext).
Proof.
  intros Hiv Hi Hne. unfold SM4_GCM.decrypt.
  destruct (Nat.eqb (length (SM4_GCM.iv self)) 0) eqn:Hempty; [reflexivity |].
  fold (expected_tag self ciphertext ctLen).
  destruct (forallb _ (seq 0 (Nat.min tagLen 16))) eqn:Hall; [| reflexivity].
  rewrite forallb_forall in Hall.
  specialize (Hall i). rewrite in_seq in Hall.
  assert (Heq : Z.eqb (rd (expected_tag self ciphertext ctLen) i) (rd tag i) = true)
    by (apply Hall; lia).
  apply Z.eqb_eq in Heq. congruence.
Qed.

Lemma tag_mismatch_fails_witness :
  SM4_GCM.iv test_session <> []
  /\ (0 < Nat.min 16 16)%nat
  /\ rd (repeat 0 16) 0 <> rd (expected_tag test_session hello 15) 0
  /\ SM4_GCM.decrypt test_session hello 15 (repeat 0 16) 16 (repeat 7 32)
     = (false, repeat 7 32).
Proof.
  assert (H1 : SM4_GCM.iv test_session <> []) by (vm_compute; discriminate).
  assert (H2 : (0 < Nat.min 16 16)%nat) by (vm_compute; lia).
  assert (H3 : rd (repeat 0 16) 0 <> rd (expected_tag test_session hello 15) 0)
    by (vm_compute; discriminate).
  split; [exact H1 | split; [exact H2 | split; [exact H3 |]]].
  exact (tag_mismatch_fails test_session hello 15 (repeat 0 16) 16 (repeat 7 32) 0
           H1 H2 H3).
Defined.

(** C10. When [decrypt] is called with [tagLen = 0] and an IV set, the
    comparison loop has no pass: whatever the supplied tag, the call
    succeeds and the plaintext buffer receives the counter-mode
    decryption of the ciphertext, byte [k] being the ciphertext byte
    combined with byte [k] of the key stream. *)
Theorem zero_tag_length_accepts (self : SM4_GCM.t) (ciphertext : list Z) (ctLen : nat)
    (tag plaintext : list Z) :
  SM4_GCM.iv self <> [] ->
  (ctLen <= length plaintext)%nat ->
  let j0 := SM4_GCM.initial_counter self in
  let dec := SM4_GCM.decrypt self ciphertext ctLen tag 0 plaintext in
  dec = (true, SM4_GCM.ctr_mode self j0 ciphertext ctLen plaintext)
  /\ length (snd dec) = length plaintext
  /\ forall k, rd (snd dec) k
               = if (k <? ctLen)%nat
                 then Z.lxor (rd ciphertext k) (keystream_byte self j0 k)
                 else rd plaintext k.
Proof.
  intros Hiv Hlen j0 dec.
  assert (Hdec : dec = (true, SM4_GCM.ctr_mode self j0 ciphertext ctLen plaintext)).
  { unfold dec, SM4_GCM.decrypt.
    destruct (Nat.eqb (length (SM4_GCM.iv self)) 0) eqn:Hempty.
    - apply Nat.eqb_eq in Hempty. destruct (SM4_GCM.iv self); [congruence | discriminate].
    - cbn [Nat.min seq forallb]. reflexivity. }
  rewrite Hdec. cbn [snd]. split; [reflexivity |].
  apply ctr_mode_done. exact Hlen.
Qed.

Lemma zero_tag_length_accepts_witness :
  SM4_GCM.iv test_session <> []
  /\ (15 <= length (repeat 7 32))%nat
  /\ SM4_GCM.decrypt test_session hello 15 [1; 2; 3] 0 (repeat 7 32)
     = (true, SM4_GCM.ctr_mode test_session (SM4_GCM.initial_counter test_session)
                hello 15 (repeat 7 32)).
Proof.
  assert (H1 : SM4_GCM.iv test_session <> []) by (vm_compute; discriminate).
  assert (H2 : (15 <= length (repeat 7 32))%nat) by (vm_compute; lia).
  split; [exact H1 | split; [exact H2 |]].
  exact (proj1 (zero_tag_length_accepts test_session hello 15 [1; 2; 3] (repeat 7 32)
                  H1 H2)).
Defined.

Lemma expand_rounds_length n i K : length (SM4.expand_rounds n i K) = n.
Proof.
  revert i K. induction n as [| n IH]; intros i K; [reflexivity |].
  destruct K as [[[K0 K1] K2] K3]. cbn [SM4.expand_rounds length].
  rewrite IH. reflexivity.
Qed.

Lemma setKey_length key : length (TTable.setKey key) = 32%nat.
Proof.
  unfold TTable.setKey, TTable.keyExpansion, SM4.expand_key.
  apply expand_rounds_length.
Qed.

Lemma zero_fill (l : list Z) : map (fun _ => 0) l = repeat 0 (length l).
Proof. induction l as [| h t IH]; [reflexivity |]. cbn. rewrite IH. reflexivity. Qed.

(** C9. After [setIV] with a nonzero length and then [clear], [encrypt]
    does not report the missing IV: [clear] fills the IV and AAD vectors
    with zeros and keeps their lengths, so [encrypt] goes on with an
    all-zero IV of the length given to [setIV], under the zeroed round
    keys and sub-key. *)
Theorem encrypt_after_clear (self : SM4_GCM.t) (iv_data : list Z) (ivLen : nat)
    (plaintext : list Z) (ptLen : nat) (ciphertext tag : list Z) (tagLen : nat) :
  ivLen <> 0%nat ->
  let cleared := SM4_GCM.clear (SM4_GCM.setIV iv_data ivLen self) in
  cleared = SM4_GCM.mk (repeat 0 (length (SM4_GCM.sm4 self))) (0, 0) (repeat 0 ivLen)
                       (repeat 0 (length (SM4_GCM.aad self)))
  /\ fst (fst (SM4_GCM.encrypt cleared plaintext ptLen ciphertext tag tagLen)) = true.
Proof.
  intros Hlen cleared.
  assert (Hc : cleared
               = SM4_GCM.mk (repeat 0 (length (SM4_GCM.sm4 self))) (0, 0) (repeat 0 ivLen)
                            (repeat 0 (length (SM4_GCM.aad self)))).
  { unfold cleared, SM4_GCM.clear, SM4_GCM.setIV, TTable.clear.
    cbn [SM4_GCM.sm4 SM4_GCM.H SM4_GCM.iv SM4_GCM.aad].
    rewrite !zero_fill, rdn_length. reflexivity. }
  split; [exact Hc |].
  rewrite Hc. unfold SM4_GCM.encrypt. cbn [SM4_GCM.iv].
  rewrite repeat_length.
  destruct (Nat.eqb ivLen 0) eqn:E; [apply Nat.eqb_eq in E; contradiction |].
  reflexivity.
Qed.

Lemma encrypt_after_clear_witness :
  12%nat <> 0%nat
  /\ fst (fst (SM4_GCM.encrypt
                 (SM4_GCM.clear (SM4_GCM.setIV test_iv 12 (SM4_GCM.setKey test_key fresh)))
                 hello 15 (repeat 0 32) (repeat 0 16) 16)) = true.
Proof.
  assert (H1 : 12%nat <> 0%nat) by lia.
  split; [exact H1 |].
  exact (proj2 (encrypt_after_clear (SM4_GCM.setKey test_key fresh) test_iv 12 hello 15
                  (repeat 0 32) (repeat 0 16) 16 H1)).
Defined.

(** After [setKey] the schedule has its 32 words. *)
Lemma setKey_schedule key self :
  length (SM4_GCM.sm4 (SM4_GCM.setKey key self)) = 32%nat.
Proof. apply setKey_length. Qed.

(** C8 as written fails: in the session of [testSM4GCM] a second
    [encrypt], with no [setIV] in between, succeeds with the IV that
    served the first. *)
Lemma stored_iv_serves_again : ~ stored_for_next_call_only.
Proof.
  intros [_ Honce].
  specialize (Honce test_session
                (SM4_GCM.Encrypt hello 15 (repeat 0 32) (repeat 0 16) 16)
                hello 15%nat (repeat 0 32) (repeat 0 16) 16%nat eq_refl).
  vm_compute in Honce. discriminate Honce.
Qed.

(** A call that is not [setIV], [setAAD] or [clear] leaves both vectors
    as they are: [setKey] writes the round keys and [H] only. *)
Lemma step_keeps_vectors self c :
  keeps_vectors c = true ->
  SM4_GCM.iv (fst (SM4_GCM.step self c)) = SM4_GCM.iv self
  /\ SM4_GCM.aad (fst (SM4_GCM.step self c)) = SM4_GCM.aad self.
Proof.
  intros Hc. destruct c; try discriminate Hc; cbn [SM4_GCM.step fst].
  - unfold SM4_GCM.setKey, SM4_GCM.generateSubkey. cbn [SM4_GCM.iv SM4_GCM.aad].
    split; reflexivity.
  - split; reflexivity.
  - split; reflexivity.
Qed.

Lemma run_keeps_vectors cs self :
  forallb keeps_vectors cs = true ->
  SM4_GCM.iv (fst (SM4_GCM.run self cs)) = SM4_GCM.iv self
  /\ SM4_GCM.aad (fst (SM4_GCM.run self cs)) = SM4_GCM.aad self.
Proof.
  revert self. induction cs as [| c cs IH]; intros self Hcs; [split; reflexivity |].
  cbn [forallb] in Hcs. apply andb_true_iff in Hcs. destruct Hcs as [Hc Hcs].
  destruct (step_keeps_vectors self c Hc) as [Hi Ha].
  cbn [SM4_GCM.run].
  destruct (SM4_GCM.step self c) as [s1 r]. cbn [fst] in Hi, Ha.
  destruct (IH s1 Hcs) as [Hi' Ha'].
  destruct (SM4_GCM.run s1 cs) as [s2 rs]. cbn [fst] in *.
  split; congruence.
Qed.

Lemma run_crypt_only cs self :
  forallb is_crypt cs = true -> fst (SM4_GCM.run self cs) = self.
Proof.
  induction cs as [| c cs IH]; intros Hcs; [reflexivity |].
  cbn [forallb] in Hcs. apply andb_true_iff in Hcs. destruct Hcs as [Hc Hcs].
  specialize (IH Hcs). cbn [SM4_GCM.run].
  destruct c; try discriminate Hc; cbn [SM4_GCM.step];
    destruct (SM4_GCM.run self cs) as [s rs]; exact IH.
Qed.

(** C8, amended. Each [setIV] ([setAAD]) call replaces the stored IV
    (AAD) with the new contents, whatever was stored, and leaves the other
    members alone.  The stored IV and AAD stay in force until the next
    [setIV], [setAAD] or [clear]: after any calls of [encrypt], [decrypt]
    and [setKey] the two vectors are what they were, an [encrypt] made
    then succeeds, and after further [encrypt] and [decrypt] calls
    [decrypt] still accepts what that [encrypt] produced and gives the
    plaintext back. *)
Theorem setters_replace_and_persist (self : SM4_GCM.t) (cs cs' : list SM4_GCM.call)
    (P ctbuf tagbuf ptbuf : list Z) (tagLen : nat) :
  forallb keeps_vectors cs = true ->
  forallb is_crypt cs' = true ->
  SM4_GCM.iv self <> [] ->
  (tagLen <= 16)%nat ->
  (length P <= length ctbuf)%nat ->
  (tagLen <= length tagbuf)%nat ->
  (length P <= length ptbuf)%nat ->
  let later := fst (SM4_GCM.run self cs) in
  let enc := SM4_GCM.encrypt later P (length P) ctbuf tagbuf tagLen in
  let last := fst (SM4_GCM.run later cs') in
  let dec := SM4_GCM.decrypt last (snd (fst enc)) (length P) (snd enc) tagLen ptbuf in
  (forall self0 d1 n1 d2,
      SM4_GCM.setIV d2 (length d2) (SM4_GCM.setIV d1 n1 self0)
      = SM4_GCM.mk (SM4_GCM.sm4 self0) (SM4_GCM.H self0) d2 (SM4_GCM.aad self0))
  /\ (forall self0 d1 n1 d2,
         SM4_GCM.setAAD d2 (length d2) (SM4_GCM.setAAD d1 n1 self0)
         = SM4_GCM.mk (SM4_GCM.sm4 self0) (SM4_GCM.H self0) (SM4_GCM.iv self0) d2)
  /\ SM4_GCM.iv later = SM4_GCM.iv self
  /\ SM4_GCM.aad later = SM4_GCM.aad self
  /\ fst (fst enc) = true
  /\ fst dec = true
  /\ firstn (length P) (snd dec) = P.
Proof.
  intros Hcs Hcs' Hiv Ht Hc Htb Hp later enc last dec.
  destruct (run_keeps_vectors cs self Hcs) as [Hi Ha]. fold later in Hi, Ha.
  assert (Hlast : last = later) by (apply run_crypt_only; exact Hcs').
  assert (Hiv' : SM4_GCM.iv later <> []) by (rewrite Hi; exact Hiv).
  pose proof (gcm_round_trip_any later P ctbuf tagbuf ptbuf tagLen Hiv' Ht Hc Htb Hp) as R.
  cbv zeta in R. destruct R as (R1 & _ & _ & R4 & R5 & _).
  split; [| split; [| split; [| split; [| split; [| split]]]]].
  - intros self0 d1 n1 d2.
    unfold SM4_GCM.setIV. cbn [SM4_GCM.sm4 SM4_GCM.H SM4_GCM.aad].
    rewrite rdn_all. reflexivity.
  - intros self0 d1 n1 d2.
    unfold SM4_GCM.setAAD. cbn [SM4_GCM.sm4 SM4_GCM.H SM4_GCM.iv].
    rewrite rdn_all. reflexivity.
  - exact Hi.
  - exact Ha.
  - exact R1.
  - unfold dec. rewrite Hlast. exact R4.
  - unfold dec. rewrite Hlast. exact R5.
Qed.

Lemma setters_replace_and_persist_witness :
  forallb keeps_vectors
    [SM4_GCM.Encrypt hello 15 (repeat 0 32) (repeat 0 16) 16;
     SM4_GCM.SetKey expected_ciphertext;
     SM4_GCM.Decrypt hello 15 (repeat 0 16) 16 (repeat 7 32)] = true
  /\ forallb is_crypt [SM4_GCM.Encrypt test_key 16 (repeat 0 32) (repeat 0 16) 16] = true
  /\ SM4_GCM.iv test_session <> []
  /\ (12 <= 16)%nat
  /\ (length hello <= length (repeat 0 32))%nat
  /\ (12 <= length (repeat 0 16))%nat
  /\ (length hello <= length (repeat 7 32))%nat
  /\ fst (fst (SM4_GCM.encrypt
                 (fst (SM4_GCM.run test_session
                         [SM4_GCM.Encrypt hello 15 (repeat 0 32) (repeat 0 16) 16;
                          SM4_GCM.SetKey expected_ciphertext;
                          SM4_GCM.Decrypt hello 15 (repeat 0 16) 16 (repeat 7 32)]))
                 hello (length hello) (repeat 0 32) (repeat 0 16) 12)) = true.
Proof.
  assert (H1 : forallb keeps_vectors
                 [SM4_GCM.Encrypt hello 15 (repeat 0 32) (repeat 0 16) 16;
                  SM4_GCM.SetKey expected_ciphertext;
                  SM4_GCM.Decrypt hello 15 (repeat 0 16) 16 (repeat 7 32)] = true)
    by reflexivity.
  assert (H2 : forallb is_crypt
                 [SM4_GCM.Encrypt test_key 16 (repeat 0 32) (repeat 0 16) 16] = true)
    by reflexivity.
  assert (H3 : SM4_GCM.iv test_session <> []) by (vm_compute; discriminate).
  assert (H4 : (12 <= 16)%nat) by lia.
  assert (H5 : (length hello <= length (repeat 0 32))%nat) by (vm_compute; lia).
  assert (H6 : (12 <= length (repeat 0 16))%nat) by (vm_compute; lia).
  assert (H7 : (length hello <= length (repeat 7 32))%nat) by (vm_compute; lia).
  split; [exact H1 |]. split; [exact H2 |]. split; [exact H3 |]. split; [exact H4 |].
  split; [exact H5 |]. split; [exact H6 |]. split; [exact H7 |].
  exact (proj1 (proj2 (proj2 (proj2 (proj2
           (setters_replace_and_persist test_session _ _ hello (repeat 0 32) (repeat 0 16)
              (repeat 7 32) 12 H1 H2 H3 H4 H5 H6 H7)))))).
Defined.

(** ** The product of [gfmul] is commutative *)

Lemma lxor_swap a b c d :
  Z.lxor (Z.lxor a b) (Z.lxor c d) = Z.lxor (Z.lxor a c) (Z.lxor b d).
Proof.
  rewrite !Z.lxor_assoc. f_equal.
  rewrite <- !Z.lxor_assoc. rewrite (Z.lxor_comm b c). reflexivity.
Qed.

Lemma odd_lxor a b : Z.odd (Z.lxor a b) = xorb (Z.odd a) (Z.odd b).
Proof. rewrite <- !Z.bit0_odd. apply Z.lxor_spec. Qed.

Lemma mulx_lxor a b : mulx (Z.lxor a b) = Z.lxor (mulx a) (mulx b).
Proof.
  unfold mulx. rewrite Z.shiftr_lxor, odd_lxor, lxor_swap. f_equal.
  destruct (Z.odd a), (Z.odd b); cbn [xorb];
    rewrite ?Z.lxor_nilpotent, ?Z.lxor_0_r, ?Z.lxor_0_l; reflexivity.
Qed.

Lemma mulx_0 : mulx 0 = 0.
Proof. reflexivity. Qed.

Lemma horner_0 bs : horner bs 0 = 0.
Proof.
  induction bs as [| b bs IH]; [reflexivity |].
  cbn [horner]. rewrite mulx_0, IH. destruct b; reflexivity.
Qed.

Lemma horner_lxor bs U V :
  horner bs (Z.lxor U V) = Z.lxor (horner bs U) (horner bs V).
Proof.
  revert U V. induction bs as [| b bs IH]; intros U V; [reflexivity |].
  cbn [horner]. rewrite mulx_lxor, IH, lxor_swap. f_equal.
  destruct b; cbn [cond]; [reflexivity | rewrite Z.lxor_0_r; reflexivity].
Qed.

Lemma horner_cond bs b V : horner bs (cond b V) = cond b (horner bs V).
Proof. destruct b; cbn [cond]; [reflexivity | apply horner_0]. Qed.

Lemma horner_mulx bs V : horner bs (mulx V) = mulx (horner bs V).
Proof.
  revert V. induction bs as [| b bs IH]; intros V; [reflexivity |].
  cbn [horner]. rewrite mulx_lxor, IH. f_equal.
  destruct b; reflexivity.
Qed.

(** Two such sums commute: this is the commutativity of the product,
    since every [mulx^i] is additive. *)
Lemma horner_comm xs ys V :
  horner xs (horner ys V) = horner ys (horner xs V).
Proof.
  revert V. induction xs as [| x xs IH]; intros V.
  - cbn [horner]. rewrite horner_0. reflexivity.
  - cbn [horner]. rewrite horner_lxor, horner_cond. f_equal.
    rewrite <- horner_mulx, IH, horner_mulx, horner_mulx. reflexivity.
Qed.

Lemma mulx_pow2 k : 1 <= k -> mulx (2 ^ k) = 2 ^ (k - 1).
Proof.
  intros Hk. unfold mulx.
  replace (Z.odd (2 ^ k)) with false.
  - rewrite Z.lxor_0_r, Z.shiftr_div_pow2 by lia.
    change (2 ^ 1) with 2. replace k with (k - 1 + 1) at 1 by lia.
    rewrite Z.pow_add_r by lia. change (2 ^ 1) with 2.
    apply Z.div_mul. lia.
  - symmetry. rewrite <- Z.bit0_odd. apply Z.pow2_bits_false. lia.
Qed.

(** The sum over the bits of [Y], most significant first, from the
    matching powers of two is [Y]. *)
Lemma horner_bits Y (n s : nat) :
  horner (map (fun i => Z.testbit Y (Z.of_nat (s + n - 1 - i))) (seq s n))
         (2 ^ (Z.of_nat n - 1))
  = Y mod 2 ^ Z.of_nat n.
Proof.
  revert s. induction n as [| n IH]; intros s.
  - cbn [seq map horner]. change (2 ^ Z.of_nat 0) with 1. rewrite Z.mod_1_r. reflexivity.
  - cbn [seq map horner].
    replace (s + S n - 1 - s)%nat with n by lia.
    replace (Z.of_nat (S n) - 1) with (Z.of_nat n) by lia.
    assert (Hrest : horner (map (fun i => Z.testbit Y (Z.of_nat (s + S n - 1 - i)))
                               (seq (S s) n)) (mulx (2 ^ Z.of_nat n))
                    = Y mod 2 ^ Z.of_nat n).
    { destruct n as [| n'].
      - cbn [seq map horner]. change (2 ^ Z.of_nat 0) with 1. rewrite Z.mod_1_r. reflexivity.
      - rewrite mulx_pow2 by lia. rewrite <- (IH (S s)).
        f_equal. apply map_ext. intros i.
        replace (s + S (S n') - 1 - i)%nat with (S s + S n' - 1 - i)%nat by lia.
        reflexivity. }
    rewrite Hrest. rewrite Nat2Z.inj_succ.
    destruct (Z.testbit Y (Z.of_nat n)) eqn:Hbit; cbn [cond].
    + Z.bitblast;
        destruct (Z.eqb_spec (Z.of_nat n) i) as [<- | Hne];
        rewrite ?Hbit; try lia; cbn [xorb andb negb];
        try reflexivity; destruct (Z.testbit Y i); reflexivity.
    + rewrite Z.lxor_0_l. Z.bitblast.
      assert (Hi' : i = Z.of_nat n) by lia. subst i. rewrite Hbit. reflexivity.
Qed.

(** *** Blocks as integers *)

Lemma val_range l : bytes l -> 0 <= val l < 2 ^ (8 * Z.of_nat (length l)).
Proof.
  induction l as [| b t IH]; intros Hl.
  - cbn. lia.
  - apply Forall_cons_iff in Hl. destruct Hl as [Hb Ht]. specialize (IH Ht).
    cbn [val length]. rewrite Nat2Z.inj_succ.
    replace (8 * Z.succ (Z.of_nat (length t))) with (8 * Z.of_nat (length t) + 8) by lia.
    rewrite Z.pow_add_r by lia. unfold byte in Hb.
    set (P := 2 ^ (8 * Z.of_nat (length t))) in *. nia.
Qed.

Lemma cat_lor a k v :
  0 <= k -> 0 <= v < 2 ^ k -> a * 2 ^ k + v = Z.lor (Z.shiftl a k) v.
Proof.
  intros Hk Hv. rewrite <- Z.shiftl_mul_pow2 by exact Hk.
  symmetry. apply Z.or_to_plus.
  rewrite <- (Z.mod_small v (2 ^ k) Hv). bits.
Qed.

Lemma lxor_below k v1 v2 :
  0 <= k -> 0 <= v1 < 2 ^ k -> 0 <= v2 < 2 ^ k -> 0 <= Z.lxor v1 v2 < 2 ^ k.
Proof.
  intros Hk H1 H2.
  replace (Z.lxor v1 v2) with (Z.lxor v1 v2 mod 2 ^ k); [apply Z.mod_pos_bound; lia |].
  rewrite <- (Z.mod_small v1 (2 ^ k) H1), <- (Z.mod_small v2 (2 ^ k) H2). bits.
Qed.

Lemma cat_lxor a1 a2 k v1 v2 :
  0 <= k -> 0 <= v1 < 2 ^ k -> 0 <= v2 < 2 ^ k ->
  Z.lxor (a1 * 2 ^ k + v1) (a2 * 2 ^ k + v2) = Z.lxor a1 a2 * 2 ^ k + Z.lxor v1 v2.
Proof.
  intros Hk H1 H2.
  rewrite !cat_lor by auto using lxor_below.
  rewrite <- (Z.mod_small v1 (2 ^ k) H1), <- (Z.mod_small v2 (2 ^ k) H2). bits.
Qed.

Lemma cat_testbit_low a k v i :
  0 <= i < k -> 0 <= v < 2 ^ k -> Z.testbit (a * 2 ^ k + v) i = Z.testbit v i.
Proof.
  intros Hi Hv. rewrite cat_lor by lia.
  rewrite Z.lor_spec, Z.shiftl_spec_low by lia. reflexivity.
Qed.

Lemma cat_testbit_high a k v i :
  0 <= k <= i -> 0 <= v < 2 ^ k -> Z.testbit (a * 2 ^ k + v) i = Z.testbit a (i - k).
Proof.
  intros Hi Hv. rewrite cat_lor by lia.
  rewrite Z.lor_spec, Z.shiftl_spec by lia.
  rewrite <- (Z.mod_small v (2 ^ k) Hv), Z.mod_pow2_bits_high by lia.
  apply Bool.orb_false_r.
Qed.

Lemma byte_lxor x y : byte x -> byte y -> byte (Z.lxor x y).
Proof. unfold byte. intros Hx Hy. apply lxor_below; lia. Qed.

Lemma xor_lists_length a b :
  length a = length b -> length (xor_lists a b) = length a.
Proof.
  revert b. induction a as [| x a IH]; intros [| y b] Hl; try discriminate Hl;
    [reflexivity |].
  cbn [xor_lists length]. rewrite IH by (cbn in Hl; lia). reflexivity.
Qed.

Lemma xor_lists_bytes a b : bytes a -> bytes b -> bytes (xor_lists a b).
Proof.
  revert b. induction a as [| x a IH]; intros [| y b] Ha Hb; try constructor.
  - apply byte_lxor; [exact (Forall_inv Ha) | exact (Forall_inv Hb)].
  - apply IH; [exact (Forall_inv_tail Ha) | exact (Forall_inv_tail Hb)].
Qed.

Lemma val_xor_lists a b :
  bytes a -> bytes b -> length a = length b ->
  val (xor_lists a b) = Z.lxor (val a) (val b).
Proof.
  revert b. induction a as [| x a IH]; intros [| y b] Ha Hb Hl; try discriminate Hl;
    [reflexivity |].
  cbn [xor_lists val]. cbn [length] in Hl.
  rewrite xor_lists_length by lia.
  replace (length b) with (length a) by lia.
  rewrite cat_lxor.
  - rewrite IH; [reflexivity | exact (Forall_inv_tail Ha) | exact (Forall_inv_tail Hb) | lia].
  - lia.
  - apply val_range. exact (Forall_inv_tail Ha).
  - replace (length a) with (length b) by lia. apply val_range. exact (Forall_inv_tail Hb).
Qed.

Lemma xor16_blocks a b : block a -> block b -> SM4_GCM.xor16 a b = xor_lists a b.
Proof.
  intros [Ha _] [Hb _]. explode a Ha. explode b Hb. reflexivity.
Qed.

Lemma val_inj a b :
  bytes a -> bytes b -> length a = length b -> val a = val b -> a = b.
Proof.
  revert b. induction a as [| x a IH]; intros [| y b] Ha Hb Hl Hv; try discriminate Hl;
    [reflexivity |].
  cbn [length] in Hl. cbn [val] in Hv.
  pose proof (val_range a (Forall_inv_tail Ha)) as Ra.
  pose proof (val_range b (Forall_inv_tail Hb)) as Rb.
  assert (Hl' : length a = length b) by lia.
  rewrite <- Hl' in Hv, Rb.
  set (P := 2 ^ (8 * Z.of_nat (length a))) in *.
  assert (Hx : x = y) by nia.
  subst y. f_equal.
  apply IH; [exact (Forall_inv_tail Ha) | exact (Forall_inv_tail Hb) | exact Hl' | lia].
Qed.

(** *** The loop of [gfmul] on integers *)

Lemma shifted_byte b c :
  byte b -> c = 0 \/ c = 1 ->
  u8 (Z.lor (Z.shiftr b 1) (Z.shiftl c 7)) = b / 2 + 128 * c.
Proof.
  intros Hb Hc. unfold byte in Hb.
  assert (Hq : 0 <= b / 2 < 128) by (split; [apply Z.div_pos | apply Z.div_lt_upper_bound]; lia).
  rewrite Z.shiftr_div_pow2 by lia. change (2 ^ 1) with 2.
  destruct Hc as [-> | ->].
  - change (Z.shiftl 0 7) with 0. rewrite Z.lor_0_r, Z.add_0_r.
    unfold u8. apply Z.mod_small. lia.
  - change (Z.shiftl 1 7) with 128. rewrite Z.or_to_plus.
    + unfold u8. apply Z.mod_small. lia.
    + rewrite <- (Z.mod_small (b / 2) (2 ^ 7)) by (change (2 ^ 7) with 128; lia).
      change 128 with (2 ^ 7). Z.bitblast.
      replace (7 =? i) with false by (symmetry; apply Z.eqb_neq; lia).
      apply Bool.andb_false_r.
Qed.

Lemma low_bit b : Z.land b 1 = b mod 2.
Proof. change 1 with (Z.ones 1). rewrite Z.land_ones by lia. reflexivity. Qed.

Lemma shift_right_val l c :
  c = 0 \/ c = 1 -> bytes l ->
  bytes (fst (SM4_GCM.shift_right c l))
  /\ length (fst (SM4_GCM.shift_right c l)) = length l
  /\ val (fst (SM4_GCM.shift_right c l)) = (c * 2 ^ (8 * Z.of_nat (length l)) + val l) / 2
  /\ snd (SM4_GCM.shift_right c l) = (c * 2 ^ (8 * Z.of_nat (length l)) + val l) mod 2.
Proof.
  revert c. induction l as [| b t IH]; intros c Hc Hl.
  - cbn [SM4_GCM.shift_right fst snd val length].
    change (2 ^ (8 * Z.of_nat 0)) with 1.
    repeat split; try constructor; destruct Hc as [-> | ->]; reflexivity.
  - apply Forall_cons_iff in Hl. destruct Hl as [Hb Ht].
    assert (Hr : b mod 2 = 0 \/ b mod 2 = 1)
      by (pose proof (Z.mod_pos_bound b 2 ltac:(lia)); lia).
    cbn [SM4_GCM.shift_right]. rewrite low_bit, shifted_byte by assumption.
    destruct (IH (b mod 2) Hr Ht) as (Hbytes & Hlen & Hval & Hcarry).
    destruct (SM4_GCM.shift_right (b mod 2) t) as [rest' out].
    cbn [fst snd] in *. cbn [val length]. rewrite Hlen, Hval, Hcarry.
    rewrite Nat2Z.inj_succ.
    replace (8 * Z.succ (Z.of_nat (length t))) with (8 + 8 * Z.of_nat (length t)) by lia.
    rewrite Z.pow_add_r by lia. change (2 ^ 8) with 256.
    set (P := 2 ^ (8 * Z.of_nat (length t))).
    set (X := b mod 2 * P + val t).
    assert (Hsplit : c * (256 * P) + (b * P + val t) = (128 * c * P + b / 2 * P) * 2 + X).
    { unfold X. rewrite (Z.div_mod b 2) at 1 by lia. ring. }
    rewrite Hsplit, Z.div_add_l by lia.
    rewrite (Z.add_comm _ X), Z_mod_plus_full.
    repeat split.
    + constructor; [| exact Hbytes].
      unfold byte in *. change (2 ^ 8) with 256 in *.
      assert (0 <= b / 2 < 128)
        by (split; [apply Z.div_pos | apply Z.div_lt_upper_bound]; lia).
      destruct Hc as [-> | ->]; lia.
    + ring.
Qed.

Lemma reduction_eq : reduction = 0xE1 * 2 ^ 120.
Proof. reflexivity. Qed.

(** The passage from [v] to the next [v] in [gfmul] is [mulx]. *)
Lemma advance_val v :
  block v -> block (SM4_GCM.advance v) /\ val (SM4_GCM.advance v) = mulx (val v).
Proof.
  intros [Hlen Hv].
  destruct (shift_right_val v 0 (or_introl eq_refl) Hv) as (Hb & Hl & Hval & Hc).
  unfold SM4_GCM.advance.
  destruct (SM4_GCM.shift_right 0 v) as [v' carry]. cbn [fst snd] in *.
  rewrite Z.mul_0_l, Z.add_0_l in Hval, Hc.
  unfold mulx. rewrite Z.shiftr_div_pow2 by lia. change (2 ^ 1) with 2.
  rewrite Zmod_odd in Hc. rewrite <- Hval.
  destruct (Z.odd (val v)); subst carry; cbn [Z.eqb].
  - destruct v' as [| b0 t]; [rewrite Hlen in Hl; discriminate Hl |].
    cbn [wr rd nth]. cbn [length] in Hl.
    assert (Ht : length t = 15%nat) by lia.
    pose proof (Forall_inv Hb) as Hb0. pose proof (Forall_inv_tail Hb) as Hbt.
    assert (He1 : byte 0xE1) by (unfold byte; lia).
    split.
    + split; [cbn [length]; lia |].
      constructor; [apply byte_lxor; assumption | exact Hbt].
    + cbn [val]. rewrite Ht. change (8 * Z.of_nat 15) with 120.
      rewrite reduction_eq.
      pose proof (val_range t Hbt) as Rt. rewrite Ht in Rt.
      change (8 * Z.of_nat 15) with 120 in Rt.
      rewrite <- (Z.add_0_r (225 * 2 ^ 120)).
      rewrite cat_lxor by lia. rewrite Z.lxor_0_r. reflexivity.
  - rewrite Z.lxor_0_r. split; [| reflexivity].
    split; [lia | exact Hb].
Qed.

Lemma land_bit b k :
  0 <= k -> negb (Z.eqb (Z.land b (Z.shiftl 1 k)) 0) = Z.testbit b k.
Proof.
  intros Hk. rewrite Z.shiftl_1_l.
  assert (Hland : Z.land b (2 ^ k) = if Z.testbit b k then 2 ^ k else 0).
  { apply Z.bits_inj'. intros i Hi.
    rewrite Z.land_spec, Z.pow2_bits_eqb by lia.
    destruct (Z.eqb_spec k i) as [<- | Hne].
    - destruct (Z.testbit b k); cbn [andb];
        [rewrite Z.pow2_bits_true by lia; reflexivity | rewrite Z.bits_0; reflexivity].
    - rewrite Bool.andb_false_r.
      destruct (Z.testbit b k); [rewrite Z.pow2_bits_false by lia | rewrite Z.bits_0];
        reflexivity. }
  rewrite Hland. destruct (Z.testbit b k); [| reflexivity].
  assert (0 < 2 ^ k) by (apply Z.pow_pos_nonneg; lia).
  destruct (Z.eqb_spec (2 ^ k) 0); [lia | reflexivity].
Qed.

Lemma val_testbit l j k :
  bytes l -> (j < length l)%nat -> 0 <= k < 8 ->
  Z.testbit (val l) (8 * Z.of_nat (length l - 1 - j) + k) = Z.testbit (rd l j) k.
Proof.
  revert j. induction l as [| b t IH]; intros j Hl Hj Hk; cbn [length] in Hj; [lia |].
  pose proof (val_range t (Forall_inv_tail Hl)) as Rt.
  cbn [val length]. destruct j as [| j].
  - replace (S (length t) - 1 - 0)%nat with (length t) by lia.
    rewrite cat_testbit_high by lia.
    replace (8 * Z.of_nat (length t) + k - 8 * Z.of_nat (length t)) with k by lia.
    reflexivity.
  - replace (S (length t) - 1 - S j)%nat with (length t - 1 - j)%nat by lia.
    rewrite cat_testbit_low by lia.
    apply IH; [exact (Forall_inv_tail Hl) | lia | exact Hk].
Qed.

(** The test of pass [i] reads bit [127 - i] of the integer of [x]. *)
Lemma bit_set_val x i :
  block x -> (i < 128)%nat ->
  SM4_GCM.bit_set x i = Z.testbit (val x) (Z.of_nat (127 - i)).
Proof.
  intros [Hlen Hx] Hi. unfold SM4_GCM.bit_set. rewrite land_bit by lia.
  pose proof (Nat.div_mod_eq i 8) as Hdm.
  pose proof (Nat.mod_upper_bound i 8 ltac:(lia)) as Hm.
  set (q := (i / 8)%nat) in *. set (r := (i mod 8)%nat) in *.
  rewrite <- (val_testbit x q (Z.of_nat (7 - r)) Hx) by lia.
  f_equal. rewrite Hlen. lia.
Qed.

Lemma zfold_horner bs z V :
  fst (fold_left zstep bs (z, V)) = Z.lxor z (horner bs V).
Proof.
  revert z V. induction bs as [| b bs IH]; intros z V.
  - cbn. rewrite Z.lxor_0_r. reflexivity.
  - cbn [fold_left zstep horner]. rewrite IH.
    destruct b; cbn [cond]; [apply Z.lxor_assoc | rewrite Z.lxor_0_l; reflexivity].
Qed.

Lemma gfmul_fold x passes z v :
  block z -> block v ->
  let st := fold_left (SM4_GCM.gfmul_step x) passes (z, v) in
  block (fst st) /\ block (snd st)
  /\ (val (fst st), val (snd st))
     = fold_left zstep (map (SM4_GCM.bit_set x) passes) (val z, val v).
Proof.
  cbv zeta. revert z v. induction passes as [| i passes IH]; intros z v Hz Hv.
  - cbn. auto.
  - cbn [fold_left map].
    change (SM4_GCM.gfmul_step x (z, v) i)
      with (if SM4_GCM.bit_set x i then SM4_GCM.xor16 z v else z, SM4_GCM.advance v).
    destruct (advance_val v Hv) as [Hv' Hval].
    assert (Hz' : block (if SM4_GCM.bit_set x i then SM4_GCM.xor16 z v else z)
                  /\ val (if SM4_GCM.bit_set x i then SM4_GCM.xor16 z v else z)
                     = if SM4_GCM.bit_set x i then Z.lxor (val z) (val v) else val z).
    { destruct (SM4_GCM.bit_set x i); [| auto].
      rewrite xor16_blocks by assumption.
      destruct Hz as [Lz Bz], Hv as [Lv Bv].
      split; [split |].
      - rewrite xor_lists_length; lia.
      - apply xor_lists_bytes; assumption.
      - apply val_xor_lists; [assumption | assumption | lia]. }
    destruct Hz' as [Hz' Hzval].
    specialize (IH _ _ Hz' Hv').
    destruct IH as (H1 & H2 & H3).
    split; [exact H1 | split; [exact H2 |]].
    rewrite H3, Hzval, Hval. reflexivity.
Qed.

Lemma val_zero : val (repeat 0 16) = 0.
Proof. vm_compute. reflexivity. Qed.

Lemma pair_fst {A B : Type} (a : A) (b : B) (p : A * B) : (a, b) = p -> a = fst p.
Proof. intros <-. reflexivity. Qed.

Lemma gfmul_loop x y :
  SM4_GCM.gfmul x y
  = fst (fold_left (SM4_GCM.gfmul_step x) (seq 0 128) (repeat 0 16, rdn y 16)).
Proof. reflexivity. Qed.

(** [gfmul] on integers: the sum of the [mulx^i] of [y] over the bits set in [x]. *)
Lemma gfmul_val x y :
  block y ->
  block (SM4_GCM.gfmul x y)
  /\ val (SM4_GCM.gfmul x y) = horner (map (SM4_GCM.bit_set x) (seq 0 128)) (val y).
Proof.
  intros Hy. rewrite gfmul_loop.
  assert (Hz : block (repeat 0 16)).
  { split; [reflexivity |]. repeat constructor; unfold byte; lia. }
  assert (Hv : rdn y 16 = y).
  { destruct Hy as [Hlen _]. rewrite <- Hlen. apply rdn_all. }
  rewrite Hv.
  destruct (gfmul_fold x (seq 0 128) (repeat 0 16) y Hz Hy) as (H1 & _ & H3).
  split; [exact H1 |].
  apply pair_fst in H3. rewrite H3, zfold_horner.
  rewrite val_zero. apply Z.lxor_0_l.
Qed.

(** The integer of a block is the sum over its bits from [2^127]. *)
Lemma val_bits x :
  block x -> horner (map (SM4_GCM.bit_set x) (seq 0 128)) (2 ^ 127) = val x.
Proof.
  intros Hx.
  rewrite map_ext_in
    with (g := fun i => Z.testbit (val x) (Z.of_nat (0 + 128 - 1 - i))).
  - change (2 ^ 127) with (2 ^ (Z.of_nat 128 - 1)).
    rewrite horner_bits. apply Z.mod_small.
    destruct Hx as [Hlen Hb]. pose proof (val_range x Hb) as R.
    rewrite Hlen in R. exact R.
  - intros i Hi. apply in_seq in Hi. rewrite bit_set_val by (assumption || lia).
    reflexivity.
Qed.

(** C7. For all 16-byte operands [x] and [y], [gfmul(x, y) = gfmul(y, x)]. *)
Theorem gfmul_comm (x y : list Z) :
  block x -> block y -> SM4_GCM.gfmul x y = SM4_GCM.gfmul y x.
Proof.
  intros Hx Hy.
  destruct (gfmul_val x y Hy) as [[Lxy Bxy] Vxy].
  destruct (gfmul_val y x Hx) as [[Lyx Byx] Vyx].
  apply val_inj; [exact Bxy | exact Byx | lia |].
  rewrite Vxy, Vyx.
  rewrite <- (val_bits y Hy), <- (val_bits x Hx).
  apply horner_comm.
Qed.

Lemma gfmul_comm_witness :
  block test_key /\ block expected_ciphertext
  /\ SM4_GCM.gfmul test_key expected_ciphertext
     = SM4_GCM.gfmul expected_ciphertext test_key.
Proof.
  assert (Hx : block test_key).
  { split; [reflexivity |]. unfold bytes, test_key. repeat constructor; unfold byte; lia. }
  assert (Hy : block expected_ciphertext).
  { split; [reflexivity |]. unfold bytes, expected_ciphertext.
    repeat constructor; unfold byte; lia. }
  split; [exact Hx | split; [exact Hy |]].
  exact (gfmul_comm test_key expected_ciphertext Hx Hy).
Defined.

(** * Further properties of the code *)

(** ** Key schedule and block routines *)

Lemma test_key_block : block test_key.
Proof.
  split; [reflexivity |]. unfold bytes, test_key. repeat constructor; unfold byte; lia.
Qed.

(** The loop of [keyExpansion], one pass unrolled. *)
Lemma expand_rounds_S n i K :
  SM4.expand_rounds (S n) i K
  = snd (key_step i K) :: SM4.expand_rounds n (S i) (key_step i K).
Proof. destruct K as [[[K0 K1] K2] K3]. reflexivity. Qed.

Lemma lxor_cancel_r a b c : Z.lxor a c = Z.lxor b c -> a = b.
Proof.
  intros Heq.
  rewrite <- (Z.lxor_0_r a), <- (Z.lxor_0_r b), <- (Z.lxor_nilpotent c).
  rewrite <- !Z.lxor_assoc, Heq. reflexivity.
Qed.

(** A pass of the loop can be undone: the old [K[0]] is the new [K[3]]
    combined with the transform of the three words that are kept. *)
Lemma key_step_inj i K K' : key_step i K = key_step i K' -> K = K'.
Proof.
  destruct K as [[[K0 K1] K2] K3], K' as [[[K0' K1'] K2'] K3'].
  unfold key_step. intros Heq. injection Heq as H1 H2 H3 H0. subst K1' K2' K3'.
  apply lxor_cancel_r in H0. subst K0'. reflexivity.
Qed.

Lemma key_state_inj n i K K' : key_state n i K = key_state n i K' -> K = K'.
Proof.
  revert i K K'. induction n as [| n IH]; intros i K K' Heq; [exact Heq |].
  cbn [key_state] in Heq. apply IH in Heq. apply key_step_inj in Heq. exact Heq.
Qed.

(** The last four round keys are the array [K] when the loop ends. *)
Lemma last_round_keys n i K :
  skipn n (SM4.expand_rounds (n + 4) i K)
  = let '(A, B, C, D) := key_state (n + 4) i K in [A; B; C; D].
Proof.
  revert i K. induction n as [| n IH]; intros i K.
  - cbn [Nat.add skipn]. rewrite !expand_rounds_S. cbn [key_state].
    generalize (key_step i K) as K1. intros K1.
    destruct K1 as [[[A B] C] D]. cbn [key_step snd].
    reflexivity.
  - cbn [Nat.add]. rewrite expand_rounds_S. cbn [skipn key_state]. apply IH.
Qed.

Lemma load_block_inj k1 k2 : block k1 -> block k2 -> load_block k1 = load_block k2 -> k1 = k2.
Proof.
  intros H1 H2 Heq.
  rewrite <- (store_load_block k1 H1), <- (store_load_block k2 H2), Heq. reflexivity.
Qed.

Lemma expand_key_last key :
  skipn 28 (SM4.expand_key key)
  = let '(A, B, C, D) :=
        key_state 32 0 (Z.lxor (load_be32 key 0) (rd SM4.FK 0),
                        Z.lxor (load_be32 key 1) (rd SM4.FK 1),
                        Z.lxor (load_be32 key 2) (rd SM4.FK 2),
                        Z.lxor (load_be32 key 3) (rd SM4.FK 3)) in
    [A; B; C; D].
Proof. unfold SM4.expand_key. cbv zeta. apply (last_round_keys 28). Qed.

(** X1. The key schedule can be run backwards: the last four round
    keys, [roundKeys[28..31]], determine the 16-byte key.  Two keys
    whose schedules agree on these four words are equal, so
    [keyExpansion] maps different keys to different schedules, on each
    back end; this holds whatever the tables [SBOX], [CK] and [FK]
    contain. *)
Theorem key_from_last_round_keys (key1 key2 : list Z) :
  block key1 -> block key2 ->
  skipn 28 (TTable.setKey key1) = skipn 28 (TTable.setKey key2)
  \/ skipn 28 (AESNI.setKey key1) = skipn 28 (AESNI.setKey key2)
  \/ skipn 28 (ModernISA.setKey key1) = skipn 28 (ModernISA.setKey key2) ->
  key1 = key2.
Proof.
  intros H1 H2 Heq.
  assert (Hlast : skipn 28 (SM4.expand_key key1) = skipn 28 (SM4.expand_key key2)).
  { unfold TTable.setKey, TTable.keyExpansion, AESNI.setKey, AESNI.keyExpansion,
      ModernISA.setKey, ModernISA.keyExpansion in Heq.
    destruct Heq as [Heq | [Heq | Heq]]; exact Heq. }
  rewrite !expand_key_last in Hlast.
  set (K1 := (Z.lxor (load_be32 key1 0) _, _, _, _)) in Hlast.
  set (K2 := (Z.lxor (load_be32 key2 0) _, _, _, _)) in Hlast.
  assert (HK : K1 = K2).
  { apply (key_state_inj 32 0).
    destruct (key_state 32 0 K1) as [[[A B] C] D].
    destruct (key_state 32 0 K2) as [[[A' B'] C'] D'].
    injection Hlast as -> -> -> ->. reflexivity. }
  unfold K1, K2 in HK. injection HK as E0 E1 E2 E3.
  apply lxor_cancel_r in E0, E1, E2, E3.
  apply load_block_inj; [exact H1 | exact H2 |].
  unfold load_block. rewrite E0, E1, E2, E3. reflexivity.
Qed.

Lemma key_from_last_round_keys_witness :
  block test_key /\ block test_key
  /\ (skipn 28 (TTable.setKey test_key) = skipn 28 (TTable.setKey test_key)
      \/ skipn 28 (AESNI.setKey test_key) = skipn 28 (AESNI.setKey test_key)
      \/ skipn 28 (ModernISA.setKey test_key) = skipn 28 (ModernISA.setKey test_key))
  /\ test_key = test_key.
Proof.
  assert (H3 : skipn 28 (TTable.setKey test_key) = skipn 28 (TTable.setKey test_key)
               \/ skipn 28 (AESNI.setKey test_key) = skipn 28 (AESNI.setKey test_key)
               \/ skipn 28 (ModernISA.setKey test_key)
                  = skipn 28 (ModernISA.setKey test_key))
    by (left; reflexivity).
  split; [exact test_key_block |]. split; [exact test_key_block |]. split; [exact H3 |].
  exact (key_from_last_round_keys test_key test_key test_key_block test_key_block H3).
Defined.

(** The other order: [encrypt] undoes [decrypt]. *)
Lemma crypt_inverse_rev F roundKeys B :
  (forall x, word32 (F x)) -> block B ->
  crypt F roundKeys up32 (crypt F roundKeys down32 B) = B.
Proof.
  intros HF HB. unfold crypt. rewrite load_store_block.
  - unfold down32, up32. rewrite run_rounds_redo. apply store_load_block, HB.
  - apply run_rounds_ok; [exact HF | apply load_block_ok, HB].
Qed.

(** X2. For every schedule and every 16-byte block, [encrypt] of
    [decrypt] of the block is the block, on each back end: with C1,
    [encrypt] and [decrypt] are inverse bijections of the blocks. *)
Theorem encrypt_decrypt (roundKeys B : list Z) (avxSupported : bool) :
  block B ->
  TTable.encrypt roundKeys (TTable.decrypt roundKeys B) = B
  /\ AESNI.encrypt roundKeys (AESNI.decrypt roundKeys B) = B
  /\ ModernISA.encrypt avxSupported roundKeys (ModernISA.decrypt avxSupported roundKeys B)
     = B.
Proof.
  intros HB. repeat split.
  - unfold TTable.decrypt, TTable.encrypt.
    apply crypt_inverse_rev; [apply ttable_round_word | exact HB].
  - unfold AESNI.decrypt, AESNI.encrypt.
    apply crypt_inverse_rev; [apply aesni_round_word | exact HB].
  - unfold ModernISA.decrypt, ModernISA.encrypt.
    apply crypt_inverse_rev; [apply modern_round_word | exact HB].
Qed.

Lemma encrypt_decrypt_witness :
  block test_key
  /\ TTable.encrypt (repeat 0 32) (TTable.decrypt (repeat 0 32) test_key) = test_key.
Proof.
  split; [exact test_key_block |].
  exact (proj1 (encrypt_decrypt (repeat 0 32) test_key true test_key_block)).
Defined.

(** X3. The three back ends compute the same [decrypt], for every
    schedule and every input, with the capability flag set or not. *)
Theorem backends_agree_on_decrypt (roundKeys input : list Z) (avxSupported : bool) :
  TTable.decrypt roundKeys input = AESNI.decrypt roundKeys input
  /\ ModernISA.decrypt avxSupported roundKeys input = AESNI.decrypt roundKeys input.
Proof.
  split.
  - unfold TTable.decrypt, AESNI.decrypt.
    apply crypt_ext, ttable_round_function.
  - unfold ModernISA.decrypt, AESNI.decrypt.
    apply crypt_ext, modern_round_function.
Qed.

(** ** A batch there and back *)

Lemma firstn_plus (l : list Z) a b :
  firstn (a + b) l = firstn a l ++ firstn b (skipn a l).
Proof.
  revert l. induction a as [| a IH]; intros l; [reflexivity |].
  destruct l as [| h t];
    [cbn [Nat.add firstn skipn app]; rewrite firstn_nil; reflexivity |].
  cbn [Nat.add firstn skipn app]. rewrite IH. reflexivity.
Qed.

(** The blocks of a buffer, one after the other, are the buffer. *)
Lemma concat_block_of input n :
  concat (map (block_of input) (seq 0 n)) = firstn (n * 16) input.
Proof.
  induction n as [| n IH]; [reflexivity |].
  rewrite seq_S, map_app, concat_app, IH. cbn [Nat.add map concat].
  rewrite app_nil_r. unfold block_of, at_offset.
  replace (S n * 16)%nat with (n * 16 + 16)%nat by lia.
  symmetry. apply firstn_plus.
Qed.

(** Block [i] of a buffer that starts with the blocks [f 0], [f 1], ... *)
Lemma block_of_concat (f : nat -> list Z) n rest i :
  (forall j, length (f j) = 16%nat) ->
  (i < n)%nat ->
  block_of (concat (map f (seq 0 n)) ++ rest) i = f i.
Proof.
  intros Hf. revert rest. induction n as [| n IH]; intros rest Hi; [lia |].
  rewrite seq_S, map_app, concat_app. cbn [Nat.add map concat].
  rewrite app_nil_r, <- app_assoc.
  destruct (Nat.eq_dec i n) as [-> | Hne].
  - unfold block_of, at_offset.
    rewrite skipn_app, concat_blocks_length, length_seq by exact Hf.
    rewrite Nat.sub_diag, skipn_all2
      by (rewrite concat_blocks_length, length_seq by exact Hf; lia).
    cbn [skipn app]. rewrite firstn_app, Hf, Nat.sub_diag, firstn_O, app_nil_r.
    apply firstn_all2. rewrite Hf. lia.
  - apply IH. lia.
Qed.

Lemma firstn_bytes n l : bytes l -> bytes (firstn n l).
Proof.
  unfold bytes. revert l. induction n as [| n IH]; intros l Hl; [constructor |].
  destruct l as [| h t]; [constructor |].
  cbn [firstn]. constructor; [exact (Forall_inv Hl) | apply IH, (Forall_inv_tail Hl)].
Qed.

Lemma skipn_bytes n l : bytes l -> bytes (skipn n l).
Proof.
  unfold bytes. revert l. induction n as [| n IH]; intros l Hl; [exact Hl |].
  destruct l as [| h t]; [constructor |].
  cbn [skipn]. apply IH, (Forall_inv_tail Hl).
Qed.

Lemma block_of_block input n i :
  length input = (n * 16)%nat -> bytes input -> (i < n)%nat ->
  block (block_of input i).
Proof.
  intros Hlen Hb Hi. unfold block_of, at_offset. split.
  - rewrite length_firstn, length_skipn. lia.
  - apply firstn_bytes, skipn_bytes, Hb.
Qed.

(** The batch routines as a list of block results and the untouched rest. *)
Lemma blocks_content rounds avxSupported roundKeys input out n :
  (n * 16 <= length out)%nat ->
  (if avxSupported && (4 <=? n)%nat then
     let out := fold_left (ModernISA.batch4 rounds roundKeys input)
                          (ModernISA.batch_starts n) out in
     let remaining := (n mod 4)%nat in
     fold_left (fun out i =>
                  let k := (n - remaining + i)%nat in
                  blit out (k * 16)
                       (crypt (ModernISA.round_function avxSupported) roundKeys rounds
                              (at_offset input (k * 16))))
               (seq 0 remaining) out
   else
     fold_left (fun out i =>
                  blit out (i * 16)
                       (crypt (ModernISA.round_function avxSupported) roundKeys rounds
                              (at_offset input (i * 16))))
               (seq 0 n) out)
  = concat (map (fun i => crypt (ModernISA.round_function avxSupported) roundKeys rounds
                               (block_of input i))
                (seq 0 n))
    ++ skipn (n * 16) out.
Proof.
  intros Hlen. rewrite blocks_calls. apply calls_content, Hlen.
Qed.

(** X4. [decryptBlocks] undoes [encryptBlocks]: for [n] blocks of
    bytes, the batch decryption of the batch encryption leaves the input
    in the first [16 n] bytes of its output buffer and the rest of that
    buffer untouched, in both branches of the two routines. *)
Theorem decryptBlocks_encryptBlocks (avxSupported : bool)
    (roundKeys input out out' : list Z) (n : nat) :
  length input = (n * 16)%nat ->
  bytes input ->
  (n * 16 <= length out)%nat ->
  (n * 16 <= length out')%nat ->
  ModernISA.decryptBlocks avxSupported roundKeys
    (ModernISA.encryptBlocks avxSupported roundKeys input out n) out' n
  = input ++ skipn (n * 16) out'.
Proof.
  intros Hlen Hb Hout Hout'.
  unfold ModernISA.decryptBlocks, ModernISA.encryptBlocks,
    ModernISA.encrypt, ModernISA.decrypt.
  rewrite (blocks_content up32) by exact Hout.
  rewrite (blocks_content down32) by exact Hout'.
  f_equal.
  transitivity (firstn (n * 16) input); [| rewrite <- Hlen; apply firstn_all].
  rewrite <- concat_block_of.
  f_equal. apply map_ext_in. intros i Hi. apply in_seq in Hi.
  rewrite block_of_concat by (try (intros j; apply crypt_block); lia).
  apply crypt_inverse;
    [apply modern_round_word | apply (block_of_block input n); assumption || lia].
Qed.

Lemma five_blocks_bytes : bytes five_blocks.
Proof.
  unfold bytes, five_blocks. apply Forall_forall. intros x Hx.
  apply in_map_iff in Hx. destruct Hx as (k & <- & Hk). apply in_seq in Hk.
  unfold byte. lia.
Qed.

Lemma decryptBlocks_encryptBlocks_witness :
  length five_blocks = (5 * 16)%nat
  /\ ModernISA.decryptBlocks true (repeat 1 32)
       (ModernISA.encryptBlocks true (repeat 1 32) five_blocks (repeat 0 80) 5)
       (repeat 7 96) 5
     = five_blocks ++ skipn (5 * 16) (repeat 7 96).
Proof.
  assert (H1 : length five_blocks = (5 * 16)%nat) by (vm_compute; reflexivity).
  assert (H2 : (5 * 16 <= length (repeat 0 80))%nat) by (vm_compute; lia).
  assert (H3 : (5 * 16 <= length (repeat 7 96))%nat) by (vm_compute; lia).
  split; [exact H1 |].
  exact (decryptBlocks_encryptBlocks true (repeat 1 32) five_blocks (repeat 0 80)
           (repeat 7 96) 5 H1 five_blocks_bytes H2 H3).
Defined.

(** ** The arithmetic of [gfmul] *)

Lemma gfmul_block x y : block y -> block (SM4_GCM.gfmul x y).
Proof. intros Hy. apply (gfmul_val x y Hy). Qed.

Lemma gfmul_commutes x y :
  block x -> block y -> SM4_GCM.gfmul x y = SM4_GCM.gfmul y x.
Proof.
  intros Hx Hy.
  destruct (gfmul_val x y Hy) as [[Lxy Bxy] Vxy].
  destruct (gfmul_val y x Hx) as [[Lyx Byx] Vyx].
  apply val_inj; [exact Bxy | exact Byx | lia |].
  rewrite Vxy, Vyx.
  rewrite <- (val_bits y Hy), <- (val_bits x Hx).
  apply horner_comm.
Qed.

Lemma block_eq a b : block a -> block b -> val a = val b -> a = b.
Proof.
  intros [La Ba] [Lb Bb] Hv. apply val_inj; [exact Ba | exact Bb | lia | exact Hv].
Qed.

Lemma zero_block : block (repeat 0 16).
Proof. split; [reflexivity |]. repeat constructor; unfold byte; lia. Qed.

Lemma gf_one_block : block gf_one.
Proof. split; [reflexivity |]. repeat constructor; unfold byte; lia. Qed.

Lemma val_gf_one : val gf_one = 2 ^ 127.
Proof. vm_compute. reflexivity. Qed.

Lemma xor16_block a b :
  block a -> block b ->
  block (SM4_GCM.xor16 a b) /\ val (SM4_GCM.xor16 a b) = Z.lxor (val a) (val b).
Proof.
  intros Ha Hb. rewrite xor16_blocks by assumption.
  destruct Ha as [La Ba], Hb as [Lb Bb]. split; [split |].
  - rewrite xor_lists_length; lia.
  - apply xor_lists_bytes; assumption.
  - apply val_xor_lists; [assumption | assumption | lia].
Qed.

(** X5. In [gfmul] the block [80 00 ... 00] is neutral and the zero
    block is absorbing, on either side. *)
Theorem gfmul_one_and_zero (x : list Z) :
  block x ->
  SM4_GCM.gfmul x gf_one = x
  /\ SM4_GCM.gfmul gf_one x = x
  /\ SM4_GCM.gfmul x (repeat 0 16) = repeat 0 16
  /\ SM4_GCM.gfmul (repeat 0 16) x = repeat 0 16.
Proof.
  intros Hx.
  assert (H1 : SM4_GCM.gfmul x gf_one = x).
  { apply block_eq; [apply gfmul_block, gf_one_block | exact Hx |].
    rewrite (proj2 (gfmul_val x gf_one gf_one_block)), val_gf_one.
    apply val_bits, Hx. }
  assert (H0 : SM4_GCM.gfmul x (repeat 0 16) = repeat 0 16).
  { apply block_eq; [apply gfmul_block, zero_block | apply zero_block |].
    rewrite (proj2 (gfmul_val x (repeat 0 16) zero_block)), val_zero.
    apply horner_0. }
  split; [exact H1 |].
  split; [rewrite gfmul_commutes by (exact gf_one_block || exact Hx); exact H1 |].
  split; [exact H0 |].
  rewrite gfmul_commutes by (exact zero_block || exact Hx). exact H0.
Qed.

Lemma expected_ciphertext_block : block expected_ciphertext.
Proof.
  split; [reflexivity |]. unfold bytes, expected_ciphertext.
  repeat constructor; unfold byte; lia.
Qed.

Lemma gfmul_one_and_zero_witness :
  block test_key /\ SM4_GCM.gfmul test_key gf_one = test_key.
Proof.
  split; [exact test_key_block |].
  exact (proj1 (gfmul_one_and_zero test_key test_key_block)).
Defined.

Lemma gfmul_lxor_r x y z :
  block y -> block z ->
  SM4_GCM.gfmul x (SM4_GCM.xor16 y z)
  = SM4_GCM.xor16 (SM4_GCM.gfmul x y) (SM4_GCM.gfmul x z).
Proof.
  intros Hy Hz.
  destruct (xor16_block y z Hy Hz) as [Byz Vyz].
  destruct (xor16_block _ _ (gfmul_block x y Hy) (gfmul_block x z Hz)) as [Bs Vs].
  apply block_eq; [apply gfmul_block, Byz | exact Bs |].
  rewrite Vs, (proj2 (gfmul_val x _ Byz)), Vyz, horner_lxor.
  rewrite (proj2 (gfmul_val x y Hy)), (proj2 (gfmul_val x z Hz)). reflexivity.
Qed.

(** X6. [gfmul] distributes over the exclusive or of blocks, in its
    second and in its first argument. *)
Theorem gfmul_distributes (x y z : list Z) :
  block x -> block y -> block z ->
  SM4_GCM.gfmul x (SM4_GCM.xor16 y z)
  = SM4_GCM.xor16 (SM4_GCM.gfmul x y) (SM4_GCM.gfmul x z)
  /\ SM4_GCM.gfmul (SM4_GCM.xor16 x y) z
     = SM4_GCM.xor16 (SM4_GCM.gfmul x z) (SM4_GCM.gfmul y z).
Proof.
  intros Hx Hy Hz. split; [apply gfmul_lxor_r; assumption |].
  destruct (xor16_block x y Hx Hy) as [Bxy _].
  rewrite (gfmul_commutes _ z Bxy Hz), gfmul_lxor_r by assumption.
  rewrite (gfmul_commutes z x Hz Hx), (gfmul_commutes z y Hz Hy). reflexivity.
Qed.

Lemma gfmul_distributes_witness :
  block test_key /\ block expected_ciphertext /\ block gf_one
  /\ SM4_GCM.gfmul test_key (SM4_GCM.xor16 expected_ciphertext gf_one)
     = SM4_GCM.xor16 (SM4_GCM.gfmul test_key expected_ciphertext)
                     (SM4_GCM.gfmul test_key gf_one).
Proof.
  split; [exact test_key_block |].
  split; [exact expected_ciphertext_block |].
  split; [exact gf_one_block |].
  exact (proj1 (gfmul_distributes test_key expected_ciphertext gf_one
                  test_key_block expected_ciphertext_block gf_one_block)).
Defined.

(** X7. [gfmul] is associative on blocks. *)
Theorem gfmul_assoc (x y z : list Z) :
  block x -> block y -> block z ->
  SM4_GCM.gfmul (SM4_GCM.gfmul x y) z = SM4_GCM.gfmul x (SM4_GCM.gfmul y z).
Proof.
  intros Hx Hy Hz.
  pose proof (gfmul_block x y Hy) as Bxy.
  pose proof (gfmul_block y z Hz) as Byz.
  rewrite (gfmul_commutes _ z Bxy Hz).
  apply block_eq; [apply gfmul_block, Bxy | apply gfmul_block, Byz |].
  rewrite (proj2 (gfmul_val z _ Bxy)), (proj2 (gfmul_val x y Hy)).
  rewrite (proj2 (gfmul_val x _ Byz)).
  rewrite (gfmul_commutes y z Hy Hz), (proj2 (gfmul_val z y Hy)).
  apply horner_comm.
Qed.

Lemma gfmul_assoc_witness :
  block test_key /\ block expected_ciphertext /\ block gf_one
  /\ SM4_GCM.gfmul (SM4_GCM.gfmul test_key expected_ciphertext) gf_one
     = SM4_GCM.gfmul test_key (SM4_GCM.gfmul expected_ciphertext gf_one).
Proof.
  split; [exact test_key_block |].
  split; [exact expected_ciphertext_block |].
  split; [exact gf_one_block |].
  exact (gfmul_assoc test_key expected_ciphertext gf_one
           test_key_block expected_ciphertext_block gf_one_block).
Defined.

(** ** GHASH *)

Lemma be64_block a b : block (SM4_GCM.be64 a ++ SM4_GCM.be64 b).
Proof.
  split; [reflexivity |].
  unfold bytes. apply Forall_app. split; unfold SM4_GCM.be64;
    apply Forall_forall; intros x Hx; apply in_map_iff in Hx;
    destruct Hx as (i & <- & _); apply u8_byte.
Qed.

Lemma fold_left_ext_in {A B : Type} (f g : A -> B -> A) l a :
  (forall x, In x l -> forall a, f a x = g a x) ->
  fold_left f l a = fold_left g l a.
Proof.
  revert a. induction l as [| x l IH]; intros a Hfg; [reflexivity |].
  cbn [fold_left]. rewrite Hfg by (left; reflexivity).
  apply IH. intros y Hy. apply Hfg. right. exact Hy.
Qed.

Lemma xor16_ext y p p' :
  (forall j, (j < 16)%nat -> rd p j = rd p' j) ->
  SM4_GCM.xor16 y p = SM4_GCM.xor16 y p'.
Proof.
  intros Hp. unfold SM4_GCM.xor16. apply map_ext_in.
  intros j Hj. apply in_seq in Hj. rewrite Hp by lia. reflexivity.
Qed.

(** The loop of [ghash] over the full blocks. *)
Lemma ghash_blocks_block h data q y :
  block h -> block y ->
  block (fold_left (fun y i => SM4_GCM.gfmul (SM4_GCM.xor16 y (at_offset data (i * 16))) h)
                   (seq 0 q) y).
Proof.
  intros Hh. induction q as [| q IH]; intros Hy; [exact Hy |].
  rewrite seq_S, fold_left_app. cbn [Nat.add fold_left]. apply gfmul_block, Hh.
Qed.

Lemma ghash_blocks_ext h data data' q y :
  (forall k, (k < q * 16)%nat -> rd data k = rd data' k) ->
  fold_left (fun y i => SM4_GCM.gfmul (SM4_GCM.xor16 y (at_offset data (i * 16))) h)
            (seq 0 q) y
  = fold_left (fun y i => SM4_GCM.gfmul (SM4_GCM.xor16 y (at_offset data' (i * 16))) h)
              (seq 0 q) y.
Proof.
  intros Hd. apply fold_left_ext_in. intros i Hi a. apply in_seq in Hi.
  f_equal. apply xor16_ext. intros j Hj.
  rewrite !rd_at_offset. apply Hd. nia.
Qed.

(** X8. [ghash] returns sixteen bytes whatever the data and the length
    are, and the zero block when the length is zero. *)
Theorem ghash_is_block (self : SM4_GCM.t) (data : list Z) (len : nat) :
  block (SM4_GCM.ghash self data len)
  /\ SM4_GCM.ghash self data 0 = repeat 0 16.
Proof.
  split; [| reflexivity].
  unfold SM4_GCM.ghash. cbv zeta.
  pose proof (be64_block (fst (SM4_GCM.H self)) (snd (SM4_GCM.H self))) as Hh.
  destruct (0 <? len mod 16)%nat.
  - apply gfmul_block, Hh.
  - apply ghash_blocks_block; [exact Hh | apply zero_block].
Qed.

Lemma rd_repeat_zero m k : rd (repeat 0 m) k = 0.
Proof.
  unfold rd. revert k. induction m as [| m IH]; intros k; destruct k; cbn; auto.
Qed.

Lemma rd_app a b k :
  rd (a ++ b) k = if (k <? length a)%nat then rd a k else rd b (k - length a).
Proof.
  unfold rd. destruct (k <? length a)%nat eqn:E.
  - apply Nat.ltb_lt in E. apply app_nth1, E.
  - apply Nat.ltb_ge in E. apply app_nth2. lia.
Qed.

Lemma rd_rdn p n k : (k < n)%nat -> rd (rdn p n) k = rd p k.
Proof. intros Hk. unfold rdn. apply rd_map_seq, Hk. Qed.

(** The data followed by zeros: what [ghash] reads from it. *)
Lemma rd_padded data len pad k :
  rd (rdn data len ++ repeat 0 pad) k = if (k <? len)%nat then rd data k else 0.
Proof.
  rewrite rd_app, rdn_length. destruct (k <? len)%nat eqn:E.
  - apply Nat.ltb_lt in E. apply rd_rdn, E.
  - apply rd_repeat_zero.
Qed.

(** X9. [ghash] pads with zeros: the hash of [len] bytes is the hash of
    these bytes followed by the zero bytes that fill the last block, and
    nothing beyond byte [len] of the data is read. *)
Theorem ghash_zero_padding (self : SM4_GCM.t) (data : list Z) (len : nat) :
  let pad := ((16 - len mod 16) mod 16)%nat in
  SM4_GCM.ghash self data len
  = SM4_GCM.ghash self (rdn data len ++ repeat 0 pad) (len + pad).
Proof.
  intros pad. unfold SM4_GCM.ghash. cbv zeta.
  set (h := SM4_GCM.be64 (fst (SM4_GCM.H self)) ++ SM4_GCM.be64 (snd (SM4_GCM.H self))).
  pose proof (Nat.div_mod_eq len 16) as Hdm.
  pose proof (Nat.mod_upper_bound len 16 ltac:(lia)) as Hr.
  set (q := (len / 16)%nat) in *. set (r := (len mod 16)%nat) in *.
  destruct (Nat.eq_dec r 0) as [Hr0 | Hr0].
  - assert (Hpad : pad = 0%nat) by (unfold pad; rewrite Hr0; reflexivity).
    rewrite Hpad, Nat.add_0_r. fold q. fold r. rewrite Hr0. cbn [Nat.ltb Nat.leb].
    apply ghash_blocks_ext. intros k Hk. rewrite rd_padded.
    replace (k <? len)%nat with true by (symmetry; apply Nat.ltb_lt; lia).
    reflexivity.
  - assert (Hpad : pad = (16 - r)%nat)
      by (unfold pad; apply Nat.mod_small; lia).
    assert (Hlen' : (len + pad = S q * 16)%nat) by lia.
    rewrite Hlen'. rewrite Nat.div_mul, Nat.Div0.mod_mul by lia.
    replace (0 <? r)%nat with true by (symmetry; apply Nat.ltb_lt; lia).
    cbn [Nat.ltb Nat.leb].
    rewrite seq_S, fold_left_app. cbn [Nat.add fold_left].
    rewrite (ghash_blocks_ext h (rdn data len ++ repeat 0 pad) data q).
    + f_equal. apply xor16_ext. intros j Hj.
      rewrite rd_padded, !rd_at_offset, rd_padded.
      destruct (j <? r)%nat eqn:E.
      * apply Nat.ltb_lt in E.
        replace (q * 16 + j <? len)%nat with true by (symmetry; apply Nat.ltb_lt; lia).
        reflexivity.
      * apply Nat.ltb_ge in E.
        replace (q * 16 + j <? len)%nat with false by (symmetry; apply Nat.ltb_ge; lia).
        reflexivity.
    + intros k Hk. rewrite rd_padded.
      replace (k <? len)%nat with true by (symmetry; apply Nat.ltb_lt; lia).
      reflexivity.
Qed.

(** ** The counter and the sub-key *)

(** X10. [incrementCounter] on a 16-byte counter leaves the first twelve
    bytes alone and replaces the last four by the big-endian bytes of
    their 32-bit value plus one, reduced modulo [2^32]: the carry never
    reaches the first twelve bytes. *)
Theorem incrementCounter_low_word (counter : list Z) :
  length counter = 16%nat ->
  SM4_GCM.incrementCounter counter
  = firstn 12 counter ++ store_be32 ((load_be32 counter 3 + 1) mod 2 ^ 32)
  /\ load_be32 (SM4_GCM.incrementCounter counter) 3 = (load_be32 counter 3 + 1) mod 2 ^ 32.
Proof.
  intros Hlen.
  assert (Hinc : SM4_GCM.incrementCounter counter
                 = firstn 12 counter ++ store_be32 (u32 (load_be32 counter 3 + 1))).
  { explode counter Hlen. unfold SM4_GCM.incrementCounter, store_be32.
    cbn [wr firstn app]. reflexivity. }
  split; [exact Hinc |].
  rewrite Hinc. explode counter Hlen.
  rewrite load_be32_at. cbn [firstn app at_offset skipn Nat.mul].
  generalize (u32_word (load_be32 [z; z0; z1; z2; z3; z4; z5; z6; z7; z8; z9; z10; z11;
                                   z12; z13; z14] 3 + 1)).
  unfold u32. intros Hw.
  rewrite <- (app_nil_r (store_be32 _)). apply load_store_be32, Hw.
Qed.

Lemma incrementCounter_low_word_witness :
  length (repeat 0xFF 16) = 16%nat
  /\ SM4_GCM.incrementCounter (repeat 0xFF 16)
     = firstn 12 (repeat 0xFF 16)
       ++ store_be32 ((load_be32 (repeat 0xFF 16) 3 + 1) mod 2 ^ 32).
Proof.
  assert (H1 : length (repeat 0xFF 16) = 16%nat) by reflexivity.
  split; [exact H1 |].
  exact (proj1 (incrementCounter_low_word (repeat 0xFF 16) H1)).
Defined.

Lemma val_snoc l b : val (l ++ [b]) = val l * 256 + b.
Proof.
  induction l as [| x l IH]; [cbn; lia |].
  cbn [app val]. rewrite IH, length_app. cbn [length].
  rewrite Nat2Z.inj_add. change (Z.of_nat 1) with 1.
  replace (8 * (Z.of_nat (length l) + 1)) with (8 * Z.of_nat (length l) + 8) by lia.
  rewrite Z.pow_add_r by lia. change (2 ^ 8) with 256. ring.
Qed.

(** The packing loop computes the integer of its bytes. *)
Lemma pack64_val l : bytes l -> (length l <= 8)%nat -> pack64 l = val l.
Proof.
  induction l as [| b l IH] using rev_ind; intros Hb Hlen; [reflexivity |].
  unfold bytes in Hb. apply Forall_app in Hb. destruct Hb as [Hl Hb1].
  rewrite length_app in Hlen. cbn [length] in Hlen.
  unfold pack64 in *. rewrite fold_left_app. cbn [fold_left].
  rewrite IH by (assumption || lia). rewrite val_snoc.
  pose proof (val_range l Hl) as R.
  pose proof (Forall_inv Hb1) as Hbyte. unfold byte in Hbyte.
  assert (Hpow : 2 ^ (8 * Z.of_nat (length l)) <= 2 ^ 56)
    by (apply Z.pow_le_mono_r; lia).
  rewrite <- (cat_lor (val l) 8 b) by lia. change (2 ^ 8) with 256 in *.
  unfold u64. apply Z.mod_small.
  change (2 ^ 64) with (2 ^ 56 * 256). nia.
Qed.

Lemma byte_high_bits b i : byte b -> 8 <= i -> Z.testbit b i = false.
Proof.
  intros Hb Hi. rewrite <- (u8_id b Hb). unfold u8.
  apply Z.mod_pow2_bits_high. lia.
Qed.

(** Byte [j] of a byte string, read off its integer. *)
Lemma val_byte l j :
  bytes l -> (j < length l)%nat ->
  u8 (Z.shiftr (val l) (8 * Z.of_nat (length l - 1 - j))) = rd l j.
Proof.
  intros Hl Hj. apply Z.bits_inj'. intros i Hi.
  unfold u8. rewrite Z.testbit_mod_pow2 by lia.
  destruct (i <? 8) eqn:E; cbn [andb].
  - apply Z.ltb_lt in E. rewrite Z.shiftr_spec by lia.
    rewrite Z.add_comm. apply val_testbit; [exact Hl | exact Hj | lia].
  - apply Z.ltb_ge in E. symmetry.
    apply byte_high_bits; [apply rd_bytes, Hl | exact E].
Qed.

Lemma be64_val l : bytes l -> length l = 8%nat -> SM4_GCM.be64 (val l) = l.
Proof.
  intros Hl Hlen. apply list_eq_rd.
  - unfold SM4_GCM.be64. rewrite length_map, length_seq. lia.
  - intros k Hk. unfold SM4_GCM.be64 in *. rewrite length_map, length_seq in Hk.
    rewrite rd_map_seq by exact Hk.
    rewrite <- (val_byte l k Hl) by lia.
    do 2 f_equal. rewrite Hlen. lia.
Qed.

(** The loop of [generateSubkey] packs the two halves side by side. *)
Lemma pack_pair h n a b :
  fold_left (fun '(H0, H1) i =>
               (u64 (Z.lor (Z.shiftl H0 8) (rd h i)),
                u64 (Z.lor (Z.shiftl H1 8) (rd h (i + 8)))))
            (seq 0 n) (a, b)
  = (fold_left (fun H b => u64 (Z.lor (Z.shiftl H 8) b)) (map (rd h) (seq 0 n)) a,
     fold_left (fun H b => u64 (Z.lor (Z.shiftl H 8) b))
               (map (fun i => rd h (i + 8)) (seq 0 n)) b).
Proof.
  induction n as [| n IH]; [reflexivity |].
  rewrite seq_S, !map_app, !fold_left_app, IH. reflexivity.
Qed.

(** Unpacking what the loop of [generateSubkey] packed gives the bytes back. *)
Lemma unpack_pack h :
  block h ->
  SM4_GCM.be64 (fold_left (fun H b => u64 (Z.lor (Z.shiftl H 8) b)) (map (rd h) (seq 0 8)) 0)
  ++ SM4_GCM.be64 (fold_left (fun H b => u64 (Z.lor (Z.shiftl H 8) b))
                             (map (fun i => rd h (i + 8)) (seq 0 8)) 0)
  = h.
Proof.
  intros [Hlen Hb].
  assert (E1 : map (rd h) (seq 0 8) = firstn 8 h)
    by (explode h Hlen; reflexivity).
  assert (E2 : map (fun i => rd h (i + 8)%nat) (seq 0 8) = skipn 8 h)
    by (explode h Hlen; reflexivity).
  rewrite E1, E2.
  pose proof (pack64_val (firstn 8 h) (firstn_bytes 8 h Hb)) as P1.
  pose proof (pack64_val (skipn 8 h) (skipn_bytes 8 h Hb)) as P2.
  unfold pack64 in P1, P2.
  rewrite P1 by (rewrite length_firstn; lia).
  rewrite P2 by (rewrite length_skipn; lia).
  rewrite !be64_val;
    try apply firstn_bytes; try apply skipn_bytes; try exact Hb;
    try (rewrite length_firstn; lia); try (rewrite length_skipn; lia).
  apply firstn_skipn.
Qed.

(** X11. After [setKey], the sixteen bytes that [ghash] unpacks from the
    two 64-bit words of [H] are the encryption of the zero block under
    the new key: packing and unpacking lose nothing. *)
Theorem subkey_is_encrypted_zero (key : list Z) (self : SM4_GCM.t) :
  let keyed := SM4_GCM.setKey key self in
  SM4_GCM.be64 (fst (SM4_GCM.H keyed)) ++ SM4_GCM.be64 (snd (SM4_GCM.H keyed))
  = TTable.encrypt (SM4_GCM.sm4 keyed) (repeat 0 16).
Proof.
  intros keyed.
  unfold keyed, SM4_GCM.setKey, SM4_GCM.generateSubkey.
  cbn [SM4_GCM.sm4 SM4_GCM.H].
  rewrite pack_pair. cbn [fst snd].
  apply unpack_pack. unfold TTable.encrypt. apply crypt_block.
Qed.

(** X12. With an IV of exactly twelve bytes, the initial counter block
    is the IV followed by the bytes [00 00 00 01]. *)
Theorem initial_counter_96 (self : SM4_GCM.t) :
  length (SM4_GCM.iv self) = 12%nat ->
  SM4_GCM.initial_counter self = SM4_GCM.iv self ++ [0; 0; 0; 1].
Proof.
  intros Hlen. unfold SM4_GCM.initial_counter. rewrite Hlen.
  cbn [Nat.eqb]. set (v := SM4_GCM.iv self) in *. clearbody v.
  explode v Hlen. reflexivity.
Qed.

Lemma initial_counter_96_witness :
  length (SM4_GCM.iv test_session) = 12%nat
  /\ SM4_GCM.initial_counter test_session = SM4_GCM.iv test_session ++ [0; 0; 0; 1].
Proof.
  assert (H1 : length (SM4_GCM.iv test_session) = 12%nat) by (vm_compute; reflexivity).
  split; [exact H1 |].
  exact (initial_counter_96 test_session H1).
Defined.

(** ** Sessions of the GCM mode *)

Lemma no_iv_length (self : SM4_GCM.t) :
  SM4_GCM.iv self = [] -> Nat.eqb (length (SM4_GCM.iv self)) 0 = true.
Proof. intros ->. reflexivity. Qed.

Lemma iv_length (self : SM4_GCM.t) :
  SM4_GCM.iv self <> [] -> Nat.eqb (length (SM4_GCM.iv self)) 0 = false.
Proof.
  intros Hiv. destruct (SM4_GCM.iv self); [congruence | reflexivity].
Qed.

Lemma step_keeps_no_iv self c :
  SM4_GCM.iv self = [] -> keeps_no_iv c = true ->
  SM4_GCM.iv (fst (SM4_GCM.step self c)) = [].
Proof.
  intros Hiv Hc. destruct c; cbn [SM4_GCM.step fst].
  - unfold SM4_GCM.setKey, SM4_GCM.generateSubkey. cbn [SM4_GCM.iv]. exact Hiv.
  - cbn [keeps_no_iv] in Hc. apply Nat.eqb_eq in Hc. subst ivLen. reflexivity.
  - unfold SM4_GCM.setAAD. cbn [SM4_GCM.iv]. exact Hiv.
  - exact Hiv.
  - exact Hiv.
  - unfold SM4_GCM.clear. cbn [SM4_GCM.iv]. rewrite Hiv. reflexivity.
Qed.

Lemma run_keeps_no_iv cs self :
  SM4_GCM.iv self = [] -> forallb keeps_no_iv cs = true ->
  SM4_GCM.iv (fst (SM4_GCM.run self cs)) = [].
Proof.
  revert self. induction cs as [| c cs IH]; intros self Hiv Hcs; [exact Hiv |].
  cbn [forallb] in Hcs. apply andb_true_iff in Hcs. destruct Hcs as [Hc Hcs].
  pose proof (step_keeps_no_iv self c Hiv Hc) as Hstep.
  cbn [SM4_GCM.run].
  destruct (SM4_GCM.step self c) as [s1 r]. cbn [fst] in Hstep.
  specialize (IH s1 Hstep Hcs).
  destruct (SM4_GCM.run s1 cs) as [s2 rs]. exact IH.
Qed.

(** X13. A session without IV stays without IV through any calls other
    than a [setIV] of nonzero length ([setKey], [setAAD], [clear],
    [setIV] with length 0, [encrypt], [decrypt]); [encrypt] and
    [decrypt] then report failure and leave the caller's buffers as they
    were. *)
Theorem no_iv_fails (self : SM4_GCM.t) (cs : list SM4_GCM.call)
    (input : list Z) (len : nat) (out tag : list Z) (tagLen : nat) :
  SM4_GCM.iv self = [] ->
  forallb keeps_no_iv cs = true ->
  let session := fst (SM4_GCM.run self cs) in
  SM4_GCM.encrypt session input len out tag tagLen = (false, out, tag)
  /\ SM4_GCM.decrypt session input len tag tagLen out = (false, out).
Proof.
  intros Hiv Hcs session.
  pose proof (no_iv_length session (run_keeps_no_iv cs self Hiv Hcs)) as Hempty.
  unfold SM4_GCM.encrypt, SM4_GCM.decrypt. rewrite Hempty. split; reflexivity.
Qed.

Lemma no_iv_fails_witness :
  SM4_GCM.iv fresh = []
  /\ forallb keeps_no_iv
       [SM4_GCM.SetKey test_key; SM4_GCM.SetAAD test_aad 4; SM4_GCM.SetIV test_iv 0;
        SM4_GCM.Clear] = true
  /\ SM4_GCM.encrypt
       (fst (SM4_GCM.run fresh
               [SM4_GCM.SetKey test_key; SM4_GCM.SetAAD test_aad 4;
                SM4_GCM.SetIV test_iv 0; SM4_GCM.Clear]))
       hello 15 (repeat 0 32) (repeat 0 16) 16
     = (false, repeat 0 32, repeat 0 16).
Proof.
  assert (H1 : SM4_GCM.iv fresh = []) by reflexivity.
  assert (H2 : forallb keeps_no_iv
                 [SM4_GCM.SetKey test_key; SM4_GCM.SetAAD test_aad 4;
                  SM4_GCM.SetIV test_iv 0; SM4_GCM.Clear] = true) by reflexivity.
  split; [exact H1 | split; [exact H2 |]].
  exact (proj1 (no_iv_fails fresh _ hello 15 (repeat 0 32) (repeat 0 16) 16 H1 H2)).
Defined.

(** X14. With an IV set, [decrypt] succeeds exactly when the first
    [min(tagLen, 16)] bytes of the supplied tag are those of the tag
    recomputed from the ciphertext; bytes of the tag beyond them are not
    looked at. *)
Theorem decrypt_accepts_iff (self : SM4_GCM.t) (ciphertext : list Z) (ctLen : nat)
    (tag : list Z) (tagLen : nat) (plaintext : list Z) :
  SM4_GCM.iv self <> [] ->
  fst (SM4_GCM.decrypt self ciphertext ctLen tag tagLen plaintext) = true
  <-> (forall i, (i < Nat.min tagLen 16)%nat ->
                 rd tag i = rd (expected_tag self ciphertext ctLen) i).
Proof.
  intros Hiv. unfold SM4_GCM.decrypt. rewrite (iv_length self Hiv).
  fold (expected_tag self ciphertext ctLen).
  destruct (forallb _ (seq 0 (Nat.min tagLen 16))) eqn:Hall; cbn [fst].
  - split; [| reflexivity]. intros _ i Hi.
    rewrite forallb_forall in Hall. specialize (Hall i).
    rewrite in_seq in Hall. symmetry. apply Z.eqb_eq, Hall. lia.
  - split; [discriminate |]. intros Heq.
    assert (Htrue : forallb (fun i => Z.eqb (rd (expected_tag self ciphertext ctLen) i)
                                            (rd tag i))
                            (seq 0 (Nat.min tagLen 16)) = true).
    { apply forallb_forall. intros i Hi. apply in_seq in Hi.
      apply Z.eqb_eq. symmetry. apply Heq. lia. }
    congruence.
Qed.

Lemma decrypt_accepts_iff_witness :
  SM4_GCM.iv test_session <> []
  /\ (fst (SM4_GCM.decrypt test_session hello 15 (repeat 0 16) 16 (repeat 7 32)) = true
      <-> (forall i, (i < Nat.min 16 16)%nat ->
                     rd (repeat 0 16) i = rd (expected_tag test_session hello 15) i)).
Proof.
  assert (H1 : SM4_GCM.iv test_session <> []) by (vm_compute; discriminate).
  split; [exact H1 |].
  exact (decrypt_accepts_iff test_session hello 15 (repeat 0 16) 16 (repeat 7 32) H1).
Defined.

(** X15. The tag that [encrypt] writes for a tag length [t] is the
    first [min(t, 16)] bytes of the tag it writes for length 16, the rest
    of the tag buffer is as it was, and the ciphertext is the same: a
    tag length above 16 counts as 16. *)
Theorem tag_is_truncated (self : SM4_GCM.t) (plaintext : list Z) (ptLen : nat)
    (ciphertext tag : list Z) (tagLen : nat) :
  SM4_GCM.iv self <> [] ->
  (16 <= length tag)%nat ->
  let short := SM4_GCM.encrypt self plaintext ptLen ciphertext tag tagLen in
  let full := SM4_GCM.encrypt self plaintext ptLen ciphertext tag 16 in
  snd (fst short) = snd (fst full)
  /\ forall i, rd (snd short) i
               = if (i <? Nat.min tagLen 16)%nat then rd (snd full) i else rd tag i.
Proof.
  intros Hiv Hlen short full. unfold short, full, SM4_GCM.encrypt.
  rewrite (iv_length self Hiv). cbn [fst snd]. split; [reflexivity |].
  intros i. rewrite !tag_loop_rd by lia.
  change (Nat.min 16 16) with 16%nat.
  destruct (i <? Nat.min tagLen 16)%nat eqn:E; [| reflexivity].
  apply Nat.ltb_lt in E.
  replace (i <? 16)%nat with true by (symmetry; apply Nat.ltb_lt; lia).
  reflexivity.
Qed.

Lemma tag_is_truncated_witness :
  SM4_GCM.iv test_session <> []
  /\ (16 <= length (repeat 9 16))%nat
  /\ snd (fst (SM4_GCM.encrypt test_session hello 15 (repeat 0 32) (repeat 9 16) 4))
     = snd (fst (SM4_GCM.encrypt test_session hello 15 (repeat 0 32) (repeat 9 16) 16)).
Proof.
  assert (H1 : SM4_GCM.iv test_session <> []) by (vm_compute; discriminate).
  assert (H2 : (16 <= length (repeat 9 16))%nat) by (vm_compute; lia).
  split; [exact H1 | split; [exact H2 |]].
  exact (proj1 (tag_is_truncated test_session hello 15 (repeat 0 32) (repeat 9 16) 4
                  H1 H2)).
Defined.


(** X17. Two messages encrypted under the same key and IV share their
    key stream: on the bytes both have, the exclusive or of the two
    ciphertexts is the exclusive or of the two plaintexts. *)
Theorem keystream_reuse (self : SM4_GCM.t) (P1 P2 : list Z) (len1 len2 : nat)
    (ctbuf1 ctbuf2 tag1 tag2 : list Z) (tagLen1 tagLen2 : nat) (k : nat) :
  SM4_GCM.iv self <> [] ->
  (len1 <= length ctbuf1)%nat ->
  (len2 <= length ctbuf2)%nat ->
  (k < Nat.min len1 len2)%nat ->
  Z.lxor (rd (snd (fst (SM4_GCM.encrypt self P1 len1 ctbuf1 tag1 tagLen1))) k)
         (rd (snd (fst (SM4_GCM.encrypt self P2 len2 ctbuf2 tag2 tagLen2))) k)
  = Z.lxor (rd P1 k) (rd P2 k).
Proof.
  intros Hiv H1 H2 Hk. unfold SM4_GCM.encrypt.
  rewrite (iv_length self Hiv). cbn [fst snd].
  destruct (ctr_mode_done self (SM4_GCM.initial_counter self) P1 len1 ctbuf1 H1)
    as [_ Hrd1].
  destruct (ctr_mode_done self (SM4_GCM.initial_counter self) P2 len2 ctbuf2 H2)
    as [_ Hrd2].
  rewrite Hrd1, Hrd2.
  replace (k <? len1)%nat with true by (symmetry; apply Nat.ltb_lt; lia).
  replace (k <? len2)%nat with true by (symmetry; apply Nat.ltb_lt; lia).
  rewrite lxor_swap, Z.lxor_nilpotent, Z.lxor_0_r. reflexivity.
Qed.

Lemma keystream_reuse_witness :
  SM4_GCM.iv test_session <> []
  /\ (15 <= length (repeat 0 32))%nat
  /\ (12 <= length (repeat 7 16))%nat
  /\ (3 < Nat.min 15 12)%nat
  /\ Z.lxor (rd (snd (fst (SM4_GCM.encrypt test_session hello 15 (repeat 0 32)
                                           (repeat 0 16) 16))) 3)
            (rd (snd (fst (SM4_GCM.encrypt test_session test_iv 12 (repeat 7 16)
                                           (repeat 0 16) 8))) 3)
     = Z.lxor (rd hello 3) (rd test_iv 3).
Proof.
  assert (H1 : SM4_GCM.iv test_session <> []) by (vm_compute; discriminate).
  assert (H2 : (15 <= length (repeat 0 32))%nat) by (vm_compute; lia).
  assert (H3 : (12 <= length (repeat 7 16))%nat) by (vm_compute; lia).
  assert (H4 : (3 < Nat.min 15 12)%nat) by (vm_compute; lia).
  split; [exact H1 | split; [exact H2 | split; [exact H3 | split; [exact H4 |]]]].
  exact (keystream_reuse test_session hello test_iv 15 12 (repeat 0 32) (repeat 7 16)
           (repeat 0 16) (repeat 0 16) 16 8 3 H1 H2 H3 H4).
Defined.

Lemma rdn_ext p p' n :
  (forall k, (k < n)%nat -> rd p k = rd p' k) -> rdn p n = rdn p' n.
Proof.
  intros Hk. unfold rdn. apply map_ext_in. intros k Hin. apply in_seq in Hin.
  apply Hk. lia.
Qed.

Lemma auth_hash_ext self c c' len :
  (forall k, (k < len)%nat -> rd c k = rd c' k) ->
  SM4_GCM.auth_hash self c len = SM4_GCM.auth_hash self c' len.
Proof.
  intros Hk. unfold SM4_GCM.auth_hash. rewrite (rdn_ext c c' len Hk). reflexivity.
Qed.

(** Counter mode on the output of counter mode: the first bytes are
    those of the first input. *)
Lemma ctr_mode_back self j0 input len buf1 buf2 k :
  (len <= length buf1)%nat -> (len <= length buf2)%nat -> (k < len)%nat ->
  rd (SM4_GCM.ctr_mode self j0 (SM4_GCM.ctr_mode self j0 input len buf1) len buf2) k
  = rd input k.
Proof.
  intros H1 H2 Hk.
  destruct (ctr_mode_done self j0 input len buf1 H1) as [_ Hrd1].
  destruct (ctr_mode_done self j0 (SM4_GCM.ctr_mode self j0 input len buf1) len buf2 H2)
    as [_ Hrd2].
  rewrite Hrd2, Hrd1.
  replace (k <? len)%nat with true by (symmetry; apply Nat.ltb_lt; lia).
  rewrite Z.lxor_assoc, Z.lxor_nilpotent, Z.lxor_0_r. reflexivity.
Qed.

(** X18. The other direction of the round trip: when [decrypt] accepts
    a ciphertext and a tag, [encrypt] of the plaintext it released gives
    the bytes of that ciphertext and, on the compared length, the bytes
    of that tag. *)
Theorem reencrypt_after_decrypt (self : SM4_GCM.t) (ciphertext : list Z) (ctLen : nat)
    (tag : list Z) (tagLen : nat) (ptbuf ctbuf tagbuf : list Z) :
  SM4_GCM.iv self <> [] ->
  (ctLen <= length ptbuf)%nat ->
  (ctLen <= length ctbuf)%nat ->
  (Nat.min tagLen 16 <= length tagbuf)%nat ->
  let dec := SM4_GCM.decrypt self ciphertext ctLen tag tagLen ptbuf in
  let enc := SM4_GCM.encrypt self (snd dec) ctLen ctbuf tagbuf tagLen in
  fst dec = true ->
  fst (fst enc) = true
  /\ (forall k, (k < ctLen)%nat -> rd (snd (fst enc)) k = rd ciphertext k)
  /\ (forall i, (i < Nat.min tagLen 16)%nat -> rd (snd enc) i = rd tag i).
Proof.
  intros Hiv Hpt Hct Htag dec enc. unfold enc, dec, SM4_GCM.encrypt, SM4_GCM.decrypt.
  rewrite (iv_length self Hiv).
  fold (expected_tag self ciphertext ctLen).
  destruct (forallb _ (seq 0 (Nat.min tagLen 16))) eqn:Hall; cbn [fst snd];
    [| discriminate].
  intros _. split; [reflexivity |].
  set (j0 := SM4_GCM.initial_counter self).
  assert (Hback : forall k, (k < ctLen)%nat ->
            rd (SM4_GCM.ctr_mode self j0
                  (SM4_GCM.ctr_mode self j0 ciphertext ctLen ptbuf) ctLen ctbuf) k
            = rd ciphertext k).
  { intros k Hk. apply ctr_mode_back; assumption. }
  split; [exact Hback |].
  intros i Hi. rewrite tag_loop_rd by exact Htag.
  replace (i <? Nat.min tagLen 16)%nat with true by (symmetry; apply Nat.ltb_lt; lia).
  rewrite (auth_hash_ext self _ ciphertext ctLen Hback).
  rewrite forallb_forall in Hall. specialize (Hall i).
  rewrite in_seq in Hall.
  assert (Heq : Z.eqb (rd (expected_tag self ciphertext ctLen) i) (rd tag i) = true)
    by (apply Hall; lia).
  apply Z.eqb_eq in Heq. rewrite <- Heq.
  unfold expected_tag. rewrite xor16_rd by lia. reflexivity.
Qed.

Lemma reencrypt_after_decrypt_witness :
  SM4_GCM.iv test_session <> []
  /\ (length hello <= length (repeat 7 32))%nat
  /\ (length hello <= length (repeat 0 32))%nat
  /\ (Nat.min 16 16 <= length (repeat 0 16))%nat
  /\ fst (SM4_GCM.decrypt test_session
            (snd (fst (SM4_GCM.encrypt test_session hello (length hello) (repeat 0 32)
                                       (repeat 0 16) 16)))
            (length hello)
            (snd (SM4_GCM.encrypt test_session hello (length hello) (repeat 0 32)
                                  (repeat 0 16) 16))
            16 (repeat 7 32)) = true
  /\ fst (fst (SM4_GCM.encrypt test_session
                 (snd (SM4_GCM.decrypt test_session
                         (snd (fst (SM4_GCM.encrypt test_session hello (length hello)
                                                    (repeat 0 32) (repeat 0 16) 16)))
                         (length hello)
                         (snd (SM4_GCM.encrypt test_session hello (length hello)
                                               (repeat 0 32) (repeat 0 16) 16))
                         16 (repeat 7 32)))
                 (length hello) (repeat 0 32) (repeat 0 16) 16)) = true.
Proof.
  assert (H1 : SM4_GCM.iv test_session <> []) by (vm_compute; discriminate).
  assert (H2 : (length hello <= length (repeat 7 32))%nat) by (vm_compute; lia).
  assert (H3 : (length hello <= length (repeat 0 32))%nat) by (vm_compute; lia).
  assert (H4 : (Nat.min 16 16 <= length (repeat 0 16))%nat) by (vm_compute; lia).
  assert (H0 : (16 <= 16)%nat) by lia.
  pose proof (proj1 (proj2 (proj2 (proj2
                (gcm_round_trip_any test_session hello (repeat 0 32) (repeat 0 16)
                                    (repeat 7 32) 16 H1 H0 H3 H4 H2))))) as H5.
  cbv zeta in H5.
  split; [exact H1 |]. split; [exact H2 |]. split; [exact H3 |]. split; [exact H4 |].
  split; [exact H5 |].
  exact (proj1 (reencrypt_after_decrypt test_session _ (length hello) _ 16
                  (repeat 7 32) (repeat 0 32) (repeat 0 16) H1 H2 H3 H4 H5)).
Defined.

(** ** Decryption as encryption under the reversed schedule *)

Lemma run_rounds_keys F roundKeys order X :
  run_rounds F roundKeys order X
  = fold_left (fun X rk => round_step F rk X) (map (rd roundKeys) order) X.
Proof.
  unfold run_rounds. revert X.
  induction order as [| i order IH]; intros X; [reflexivity |].
  cbn [map fold_left]. apply IH.
Qed.

Lemma rdn_rev (l : list Z) :
  map (rd (rev l)) (seq 0 (length l)) = map (rd l) (rev (seq 0 (length l))).
Proof.
  rewrite map_rev. change (map (rd l) (seq 0 (length l))) with (rdn l (length l)).
  rewrite rdn_all. rewrite <- (length_rev l) at 1.
  change (map (rd (rev l)) (seq 0 (length (rev l)))) with (rdn (rev l) (length (rev l))).
  apply rdn_all.
Qed.

Lemma crypt_reversed F roundKeys input :
  length roundKeys = 32%nat ->
  crypt F roundKeys down32 input = crypt F (rev roundKeys) up32 input.
Proof.
  intros Hlen. unfold crypt. f_equal.
  rewrite !run_rounds_keys. f_equal.
  unfold down32, up32. rewrite <- Hlen. symmetry. apply rdn_rev.
Qed.

(** X19. With a schedule of 32 round keys, [decrypt] is [encrypt] under
    the schedule read backwards, on each back end and for any input
    buffer. *)
Theorem decrypt_is_encrypt_reversed (roundKeys input : list Z) (avxSupported : bool) :
  length roundKeys = 32%nat ->
  TTable.decrypt roundKeys input = TTable.encrypt (rev roundKeys) input
  /\ AESNI.decrypt roundKeys input = AESNI.encrypt (rev roundKeys) input
  /\ ModernISA.decrypt avxSupported roundKeys input
     = ModernISA.encrypt avxSupported (rev roundKeys) input.
Proof.
  intros Hlen. split; [| split].
  - unfold TTable.decrypt, TTable.encrypt. apply crypt_reversed, Hlen.
  - unfold AESNI.decrypt, AESNI.encrypt. apply crypt_reversed, Hlen.
  - unfold ModernISA.decrypt, ModernISA.encrypt. apply crypt_reversed, Hlen.
Qed.

Lemma decrypt_is_encrypt_reversed_witness :
  length (TTable.setKey test_key) = 32%nat
  /\ TTable.decrypt (TTable.setKey test_key) expected_ciphertext
     = TTable.encrypt (rev (TTable.setKey test_key)) expected_ciphertext.
Proof.
  split; [exact (setKey_length test_key) |].
  exact (proj1 (decrypt_is_encrypt_reversed (TTable.setKey test_key) expected_ciphertext
                  true (setKey_length test_key))).
Defined.

(** ** GHASH is linear *)

Lemma gfmul_lxor_l x y z :
  block x -> block y -> block z ->
  SM4_GCM.gfmul (SM4_GCM.xor16 x y) z
  = SM4_GCM.xor16 (SM4_GCM.gfmul x z) (SM4_GCM.gfmul y z).
Proof.
  intros Hx Hy Hz.
  destruct (xor16_block x y Hx Hy) as [Bxy _].
  rewrite (gfmul_commutes _ z Bxy Hz), gfmul_lxor_r by assumption.
  rewrite (gfmul_commutes z x Hz Hx), (gfmul_commutes z y Hz Hy). reflexivity.
Qed.

(** A block combined with sixteen bytes read from a buffer is a block. *)
Lemma xor16_read_block y p :
  block y -> (forall j, byte (rd p j)) -> block (SM4_GCM.xor16 y p).
Proof.
  intros [Ly By] Hp. split.
  - unfold SM4_GCM.xor16. rewrite length_map, length_seq. reflexivity.
  - unfold bytes, SM4_GCM.xor16. apply Forall_forall. intros v Hv.
    apply in_map_iff in Hv. destruct Hv as (j & <- & _).
    apply byte_lxor; [apply rd_bytes, By | apply Hp].
Qed.

Lemma xor16_length a b : length (SM4_GCM.xor16 a b) = 16%nat.
Proof. unfold SM4_GCM.xor16. rewrite length_map, length_seq. reflexivity. Qed.

Lemma xor16_swap y1 y2 p p1 p2 :
  (forall j, (j < 16)%nat -> rd p j = Z.lxor (rd p1 j) (rd p2 j)) ->
  SM4_GCM.xor16 (SM4_GCM.xor16 y1 y2) p
  = SM4_GCM.xor16 (SM4_GCM.xor16 y1 p1) (SM4_GCM.xor16 y2 p2).
Proof.
  intros Hp. apply list_eq_rd.
  - rewrite !xor16_length. reflexivity.
  - intros j Hj. rewrite xor16_length in Hj.
    rewrite !xor16_rd, Hp by lia. apply lxor_swap.
Qed.

(** One pass of [ghash] on the sum of two inputs. *)
Lemma ghash_step_linear h y1 y2 p p1 p2 :
  block h -> block y1 -> block y2 ->
  (forall j, byte (rd p1 j)) -> (forall j, byte (rd p2 j)) ->
  (forall j, (j < 16)%nat -> rd p j = Z.lxor (rd p1 j) (rd p2 j)) ->
  SM4_GCM.gfmul (SM4_GCM.xor16 (SM4_GCM.xor16 y1 y2) p) h
  = SM4_GCM.xor16 (SM4_GCM.gfmul (SM4_GCM.xor16 y1 p1) h)
                  (SM4_GCM.gfmul (SM4_GCM.xor16 y2 p2) h).
Proof.
  intros Hh H1 H2 Hp1 Hp2 Hp.
  rewrite (xor16_swap y1 y2 p p1 p2 Hp).
  apply gfmul_lxor_l; [apply xor16_read_block | apply xor16_read_block |]; assumption.
Qed.

Lemma rd_offset_byte d off j : bytes d -> byte (rd (at_offset d off) j).
Proof. intros Hd. rewrite rd_at_offset. apply rd_bytes, Hd. Qed.

Lemma ghash_blocks_linear h d d1 d2 q y1 y2 :
  block h -> block y1 -> block y2 -> bytes d1 -> bytes d2 ->
  (forall k, (k < q * 16)%nat -> rd d k = Z.lxor (rd d1 k) (rd d2 k)) ->
  fold_left (fun y i => SM4_GCM.gfmul (SM4_GCM.xor16 y (at_offset d (i * 16))) h)
            (seq 0 q) (SM4_GCM.xor16 y1 y2)
  = SM4_GCM.xor16
      (fold_left (fun y i => SM4_GCM.gfmul (SM4_GCM.xor16 y (at_offset d1 (i * 16))) h)
                 (seq 0 q) y1)
      (fold_left (fun y i => SM4_GCM.gfmul (SM4_GCM.xor16 y (at_offset d2 (i * 16))) h)
                 (seq 0 q) y2).
Proof.
  intros Hh H1 H2 Hd1 Hd2. induction q as [| q IH]; intros Hd; [reflexivity |].
  rewrite !seq_S, !fold_left_app. cbn [Nat.add fold_left].
  rewrite IH by (intros k Hk; apply Hd; lia).
  apply ghash_step_linear.
  - exact Hh.
  - apply ghash_blocks_block; assumption.
  - apply ghash_blocks_block; assumption.
  - intros j. apply rd_offset_byte, Hd1.
  - intros j. apply rd_offset_byte, Hd2.
  - intros j Hj. rewrite !rd_at_offset. apply Hd. lia.
Qed.

Lemma rd_xor_upto a b n k :
  (k < n)%nat -> rd (xor_upto a b n) k = Z.lxor (rd a k) (rd b k).
Proof. intros Hk. unfold xor_upto. apply rd_map_seq, Hk. Qed.

Lemma zero_xor_zero : repeat 0 16 = SM4_GCM.xor16 (repeat 0 16) (repeat 0 16).
Proof. reflexivity. Qed.

Lemma rd_tail_byte d off r j :
  bytes d -> byte (rd (rdn (at_offset d off) r ++ repeat 0 (16 - r)) j).
Proof.
  intros Hd. rewrite rd_padded. destruct (j <? r)%nat.
  - apply rd_offset_byte, Hd.
  - unfold byte. lia.
Qed.

(** X20. [ghash] is linear: the hash of the exclusive or of two byte
    strings of one length is the exclusive or of their hashes. *)
Theorem ghash_linear (self : SM4_GCM.t) (d1 d2 : list Z) (len : nat) :
  bytes d1 -> bytes d2 ->
  SM4_GCM.ghash self (xor_upto d1 d2 len) len
  = SM4_GCM.xor16 (SM4_GCM.ghash self d1 len) (SM4_GCM.ghash self d2 len).
Proof.
  intros Hd1 Hd2. unfold SM4_GCM.ghash. cbv zeta.
  set (h := SM4_GCM.be64 (fst (SM4_GCM.H self)) ++ SM4_GCM.be64 (snd (SM4_GCM.H self))).
  assert (Hh : block h) by apply be64_block.
  pose proof (Nat.div_mod_eq len 16) as Hdm.
  pose proof (Nat.mod_upper_bound len 16 ltac:(lia)) as Hr.
  set (q := (len / 16)%nat) in *. set (r := (len mod 16)%nat) in *.
  assert (Hd : forall k, (k < q * 16)%nat ->
                      rd (xor_upto d1 d2 len) k = Z.lxor (rd d1 k) (rd d2 k))
    by (intros k Hk; apply rd_xor_upto; lia).
  pose proof (ghash_blocks_linear h (xor_upto d1 d2 len) d1 d2 q (repeat 0 16)
                (repeat 0 16) Hh zero_block zero_block Hd1 Hd2 Hd) as Hfold.
  rewrite <- zero_xor_zero in Hfold. rewrite Hfold.
  destruct (0 <? r)%nat eqn:Hrem; [| reflexivity].
  apply ghash_step_linear.
  - exact Hh.
  - apply ghash_blocks_block; [exact Hh | apply zero_block].
  - apply ghash_blocks_block; [exact Hh | apply zero_block].
  - intros j. apply rd_tail_byte, Hd1.
  - intros j. apply rd_tail_byte, Hd2.
  - intros j Hj. rewrite !rd_padded, !rd_at_offset.
    destruct (j <? r)%nat eqn:E; [| reflexivity].
    apply Nat.ltb_lt in E. apply rd_xor_upto. lia.
Qed.

Lemma ghash_linear_witness :
  bytes hello /\ bytes test_key
  /\ SM4_GCM.ghash test_session (xor_upto hello test_key 15) 15
     = SM4_GCM.xor16 (SM4_GCM.ghash test_session hello 15)
                     (SM4_GCM.ghash test_session test_key 15).
Proof.
  assert (H1 : bytes hello)
    by (unfold bytes, hello; repeat constructor; unfold byte; lia).
  split; [exact H1 |]. split; [exact (proj2 test_key_block) |].
  exact (ghash_linear test_session hello test_key 15 H1 (proj2 test_key_block)).
Defined.

(** ** The batch routines against the table back end *)

Lemma modern_is_ttable avxSupported w :
  ModernISA.round_function avxSupported w = TTable.feistelFunction w.
Proof. rewrite modern_round_function, ttable_round_function. reflexivity. Qed.

Lemma blocks_are_ttable rounds avxSupported roundKeys input n :
  concat (map (fun i => crypt (ModernISA.round_function avxSupported) roundKeys rounds
                              (block_of input i))
              (seq 0 n))
  = concat (map (fun i => crypt TTable.feistelFunction roundKeys rounds (block_of input i))
                (seq 0 n)).
Proof.
  f_equal. apply map_ext. intros i. apply crypt_ext, modern_is_ttable.
Qed.

(** X21. For every schedule, [encryptBlocks] and [decryptBlocks] of the
    modern-ISA back end, in the lockstep branch as in the other, leave
    in the output buffer what the table back end computes on each input
    block: the batch routines are the block cipher of [TTable] applied
    block by block. *)
Theorem batch_is_ttable_blockwise (avxSupported : bool) (roundKeys input out : list Z)
    (n : nat) :
  (n * 16 <= length out)%nat ->
  ModernISA.encryptBlocks avxSupported roundKeys input out n
  = concat (map (fun i => TTable.encrypt roundKeys (block_of input i)) (seq 0 n))
    ++ skipn (n * 16) out
  /\ ModernISA.decryptBlocks avxSupported roundKeys input out n
     = concat (map (fun i => TTable.decrypt roundKeys (block_of input i)) (seq 0 n))
       ++ skipn (n * 16) out.
Proof.
  intros Hlen.
  unfold ModernISA.encryptBlocks, ModernISA.decryptBlocks,
    ModernISA.encrypt, ModernISA.decrypt, TTable.encrypt, TTable.decrypt.
  split.
  - rewrite (blocks_content up32) by exact Hlen.
    rewrite blocks_are_ttable. reflexivity.
  - rewrite (blocks_content down32) by exact Hlen.
    rewrite blocks_are_ttable. reflexivity.
Qed.

Lemma batch_is_ttable_blockwise_witness :
  (5 * 16 <= length (repeat 0 96))%nat
  /\ ModernISA.encryptBlocks true (TTable.setKey test_key) five_blocks (repeat 0 96) 5
     = concat (map (fun i => TTable.encrypt (TTable.setKey test_key)
                               (block_of five_blocks i))
                   (seq 0 5))
       ++ skipn (5 * 16) (repeat 0 96).
Proof.
  assert (H1 : (5 * 16 <= length (repeat 0 96))%nat) by (vm_compute; lia).
  split; [exact H1 |].
  exact (proj1 (batch_is_ttable_blockwise true (TTable.setKey test_key) five_blocks
                  (repeat 0 96) 5 H1)).
Defined.

(** ** The counter blocks of a 96-bit IV *)

Lemma incrementCounter_split v w :
  length v = 12%nat -> word32 w ->
  SM4_GCM.incrementCounter (v ++ store_be32 w) = v ++ store_be32 ((w + 1) mod 2 ^ 32).
Proof.
  intros Hlen Hw.
  assert (Hload : load_be32 (v ++ store_be32 w) 3 = w).
  { rewrite load_be32_at. explode v Hlen.
    cbn [Nat.mul Nat.add app at_offset skipn].
    rewrite <- (app_nil_r (store_be32 w)). apply load_store_be32, Hw. }
  unfold SM4_GCM.incrementCounter. cbv zeta. rewrite Hload.
  explode v Hlen. unfold store_be32, u32. cbn [app wr]. reflexivity.
Qed.

Lemma counter_after_S j0 m :
  counter_after j0 (S m) = SM4_GCM.incrementCounter (counter_after j0 m).
Proof. reflexivity. Qed.

Lemma initial_counter_split self :
  length (SM4_GCM.iv self) = 12%nat ->
  rdn (SM4_GCM.initial_counter self) 16 = SM4_GCM.iv self ++ store_be32 1.
Proof.
  intros Hlen. unfold SM4_GCM.initial_counter. rewrite Hlen.
  cbn [Nat.eqb]. set (v := SM4_GCM.iv self) in *. clearbody v.
  explode v Hlen. reflexivity.
Qed.

(** The counter block after [m] increments, for a 12-byte IV. *)
Lemma counter_after_iv96 (self : SM4_GCM.t) (m : nat) :
  length (SM4_GCM.iv self) = 12%nat ->
  counter_after (SM4_GCM.initial_counter self) m
  = SM4_GCM.iv self ++ store_be32 ((1 + Z.of_nat m) mod 2 ^ 32).
Proof.
  intros Hlen. induction m as [| m IH].
  - unfold counter_after. cbn [Nat.iter]. apply initial_counter_split, Hlen.
  - rewrite counter_after_S, IH.
    rewrite incrementCounter_split
      by (exact Hlen || (unfold word32; apply Z.mod_pos_bound; lia)).
    do 2 f_equal. rewrite Zplus_mod_idemp_l. f_equal. lia.
Qed.

Lemma keystream_byte_96 (self : SM4_GCM.t) (k : nat) :
  length (SM4_GCM.iv self) = 12%nat ->
  keystream_byte self (SM4_GCM.initial_counter self) k
  = rd (TTable.encrypt (SM4_GCM.sm4 self)
          (SM4_GCM.iv self ++ store_be32 ((Z.of_nat (k / 16) + 2) mod 2 ^ 32)))
       (k mod 16).
Proof.
  intros Hlen. unfold keystream_byte. rewrite (counter_after_iv96 self _ Hlen).
  replace (1 + Z.of_nat (S (k / 16))) with (Z.of_nat (k / 16) + 2) by lia.
  reflexivity.
Qed.

Lemma iv96_set (self : SM4_GCM.t) :
  length (SM4_GCM.iv self) = 12%nat -> SM4_GCM.iv self <> [].
Proof. intros Hlen Hnil. rewrite Hnil in Hlen. discriminate Hlen. Qed.

(** X22. With a 12-byte IV, the counter block after [m] increments is
    the IV followed by the big-endian bytes of [(1 + m) mod 2^32], and
    the key stream of [encrypt] and [decrypt] is made of these blocks:
    byte [k] of the output of [encrypt], and of the output of an
    accepting [decrypt], is byte [k] of the input combined with byte
    [k mod 16] of the encryption, under the round keys, of the IV followed
    by the 32-bit counter [(k / 16 + 2) mod 2^32].  The counter wraps
    without touching the IV. *)
Theorem keystream_blocks_96 (self : SM4_GCM.t) (input : list Z) (len : nat)
    (out tag : list Z) (tagLen : nat) (k : nat) :
  length (SM4_GCM.iv self) = 12%nat ->
  (len <= length out)%nat ->
  (k < len)%nat ->
  let counter := SM4_GCM.iv self ++ store_be32 ((Z.of_nat (k / 16) + 2) mod 2 ^ 32) in
  let stream := rd (TTable.encrypt (SM4_GCM.sm4 self) counter) (k mod 16) in
  (forall m, counter_after (SM4_GCM.initial_counter self) m
             = SM4_GCM.iv self ++ store_be32 ((1 + Z.of_nat m) mod 2 ^ 32))
  /\ rd (snd (fst (SM4_GCM.encrypt self input len out tag tagLen))) k
     = Z.lxor (rd input k) stream
  /\ (fst (SM4_GCM.decrypt self input len tag tagLen out) = true ->
      rd (snd (SM4_GCM.decrypt self input len tag tagLen out)) k
      = Z.lxor (rd input k) stream).
Proof.
  intros Hlen Hout Hk counter stream.
  pose proof (iv_length self (iv96_set self Hlen)) as Hiv.
  destruct (ctr_mode_done self (SM4_GCM.initial_counter self) input len out Hout)
    as [_ Hrd].
  specialize (Hrd k).
  replace (k <? len)%nat with true in Hrd by (symmetry; apply Nat.ltb_lt; lia).
  rewrite (keystream_byte_96 self k Hlen) in Hrd. fold counter in Hrd. fold stream in Hrd.
  split; [intros m; apply counter_after_iv96, Hlen |].
  split.
  - unfold SM4_GCM.encrypt. rewrite Hiv. cbn [fst snd]. exact Hrd.
  - unfold SM4_GCM.decrypt. rewrite Hiv.
    destruct (forallb _ (seq 0 (Nat.min tagLen 16))); cbn [fst snd];
      [intros _; exact Hrd | discriminate].
Qed.

Lemma keystream_blocks_96_witness :
  length (SM4_GCM.iv test_session) = 12%nat
  /\ (40 <= length (repeat 0 48))%nat
  /\ (35 < 40)%nat
  /\ rd (snd (fst (SM4_GCM.encrypt test_session five_blocks 40 (repeat 0 48)
                                   (repeat 0 16) 16))) 35
     = Z.lxor (rd five_blocks 35)
              (rd (TTable.encrypt (SM4_GCM.sm4 test_session)
                     (SM4_GCM.iv test_session
                      ++ store_be32 ((Z.of_nat (35 / 16) + 2) mod 2 ^ 32)))
                  (35 mod 16)).
Proof.
  assert (H1 : length (SM4_GCM.iv test_session) = 12%nat) by (vm_compute; reflexivity).
  assert (H2 : (40 <= length (repeat 0 48))%nat) by (vm_compute; lia).
  assert (H3 : (35 < 40)%nat) by lia.
  split; [exact H1 |]. split; [exact H2 |]. split; [exact H3 |].
  exact (proj1 (proj2 (keystream_blocks_96 test_session five_blocks 40 (repeat 0 48)
                         (repeat 0 16) 16 35 H1 H2 H3))).
Defined.
